(** * A tree node with parent and children links (src/node.js)

    The class [Node] of src/node.js is embedded over an explicit store of node
    objects.  A node is known by its address in the store; its [properties]
    object holds the id, the content, the parent link and the array of
    children.  Methods that only read take the store; methods that mutate
    are computations of the state-and-error monad [M]. *)

From Stdlib Require Import ZArith Lia.
From stdpp Require Import base option list strings.

Set Warnings "-register-all".

Open Scope string_scope.
Open Scope list_scope.

(** ** Values and results of the language *)

Module JS.

(** Addresses of node objects in the store. *)
Abbreviation loc := nat.

(** The values a node can hold as id or content, and the records that
    [encode] builds and [parse] reads.
    - numbers are the integers, plus [VNaN];
    - [VNode a] is a reference to the node object at address [a];
    - [VRef l] is a reference to any other object, known by its identity
      only: it has no property called id, content or nodes and cannot be
      iterated;
    - [VArr] and [VObj] are array and object literals known by what they
      hold; their identity is not tracked, so they stand for objects that
      nothing else refers to. *)
Inductive value : Type :=
| VUndefined
| VNull
| VBool (b : bool)
| VNum (z : Z)
| VNaN
| VStr (s : string)
| VRef (l : nat)
| VNode (a : loc)
| VArr (xs : list value)
| VObj (fields : list (string * value)).

(** The language types of the values. *)
Inductive type : Type :=
| TUndefined | TNull | TBoolean | TNumber | TString | TObject.

Definition type_of (v : value) : type :=
  match v with
  | VUndefined => TUndefined
  | VNull => TNull
  | VBool _ => TBoolean
  | VNum _ | VNaN => TNumber
  | VStr _ => TString
  | VRef _ | VNode _ | VArr _ | VObj _ => TObject
  end.

(** [v === w]: no conversion; values of different types are never equal,
    [NaN] is equal to nothing, objects are equal when they are the same
    object. *)
Definition strict_eq (v w : value) : bool :=
  match v, w with
  | VUndefined, VUndefined => true
  | VNull, VNull => true
  | VBool a, VBool b => Bool.eqb a b
  | VNum a, VNum b => (a =? b)%Z
  | VStr a, VStr b => String.eqb a b
  | VRef a, VRef b => (a =? b)%nat
  | VNode a, VNode b => (a =? b)%nat
  | _, _ => false
  end.

(** What a call can throw.  [TypeError] is the language's; [Exhausted]
    says that the recursion budget of the model ran out (the program
    overflows its stack or never returns); [Dangling] says that an address
    is not in the store, which no program can observe. *)
Inductive error : Type := TypeError | Exhausted | Dangling.

Inductive result (A : Type) : Type :=
| Ok (a : A)
| Throw (e : error).
Arguments Ok {A} a.
Arguments Throw {A} e.

#[global] Instance result_ret : MRet result := λ A a, Ok a.
#[global] Instance result_bind : MBind result :=
  λ A B f m, match m with Ok a => f a | Throw e => Throw e end.
#[global] Instance result_fmap : FMap result :=
  λ A B f m, match m with Ok a => Ok (f a) | Throw e => Throw e end.

(** [array[k]]: the element at index [k], [undefined] outside the array. *)
Definition array_get {A} (inj : A → value) (array : list A) (k : Z) : value :=
  if (k <? 0)%Z then VUndefined
  else match array !! Z.to_nat k with
       | Some x => inj x
       | None => VUndefined
       end.

(** [array.indexOf(x)] on an array of node references: the first index
    holding [x], or -1. *)
Fixpoint indexOf_from (array : list loc) (x : loc) (i : Z) : Z :=
  match array with
  | [] => (-1)%Z
  | y :: array => if (y =? x)%nat then i else indexOf_from array x (i + 1)%Z
  end.
Definition indexOf (array : list loc) (x : loc) : Z := indexOf_from array x 0%Z.

(** [array.includes(x)] on an array of node references. *)
Definition includes (array : list loc) (x : loc) : bool :=
  existsb (λ y, (y =? x)%nat) array.

(** [array.find(f)]: the first element for which [f] holds, or [undefined]. *)
Fixpoint find (f : loc → result bool) (array : list loc) : result value :=
  match array with
  | [] => Ok VUndefined
  | x :: array => b ← f x; if b : bool then Ok (VNode x) else find f array
  end.

(** [v + n] where [v] is a number or [null] (which converts to 0). *)
Definition plus (v : value) (n : Z) : Z :=
  match v with
  | VNum z => (z + n)%Z
  | _ => n
  end.

(** The default value of a parameter applies to an argument that is
    missing or [undefined]. *)
Definition or_default (d v : value) : value :=
  match v with
  | VUndefined => d
  | _ => v
  end.

(** Reading an own property of an object literal. *)
Fixpoint field (fields : list (string * value)) (name : string) : value :=
  match fields with
  | [] => VUndefined
  | (k, v) :: fields => if String.eqb k name then v else field fields name
  end.

(** Running the calls of a list in order, collecting the results. *)
Fixpoint map_result {A B} (f : A → result B) (l : list A) : result (list B) :=
  match l with
  | [] => Ok []
  | x :: l => y ← f x; ys ← map_result f l; Ok (y :: ys)
  end.

End JS.
Import JS.

(** ** The class Node *)

Module Node.

(** [this.properties] *)
Record properties : Type := Properties {
  id : value;
  content : value;
  parent : option loc;
  children : list loc
}.

(** The store: the node objects created so far, in the order of creation.
    The address of a node is its position. *)
Abbreviation heap := (list properties).

Definition get (h : heap) (a : loc) : result properties :=
  match h !! a with
  | Some p => Ok p
  | None => Throw Dangling
  end.

(** Computations that change the store. *)
Definition M (A : Type) : Type := heap → result (A * heap).

#[global] Instance M_ret : MRet M := λ A a h, Ok (a, h).
#[global] Instance M_bind : MBind M :=
  λ A B f m h, match m h with Ok (a, h') => f a h' | Throw e => Throw e end.

Definition read (a : loc) : M properties :=
  λ h, p ← get h a; Ok (p, h).

Definition modify (a : loc) (f : properties → properties) : M unit :=
  λ h, p ← get h a; Ok (tt, <[a := f p]> h).

Definition with_content (c : value) (p : properties) : properties :=
  Properties (id p) c (parent p) (children p).
Definition with_parent (q : option loc) (p : properties) : properties :=
  Properties (id p) (content p) q (children p).
Definition with_children (cs : list loc) (p : properties) : properties :=
  Properties (id p) (content p) (parent p) cs.

(** *** Creating *)

(** [new Node({ id, content = null })]: a property that the argument
    lacks is [VUndefined]. *)
Definition new (id content : value) : M loc :=
  λ h,
    let content := or_default VNull content in
    Ok (length h, h ++ [Properties id content None []]).

(** *** Properties *)

Definition set_content (a : loc) (c : value) : M unit := modify a (with_content c).
Definition set_parent (a : loc) (q : option loc) : M unit := modify a (with_parent q).
Definition set_children (a : loc) (cs : list loc) : M unit := modify a (with_children cs).

(** *** Root *)

(** [isRoot()]: [this.parent === null] *)
Definition isRoot (h : heap) (a : loc) : result bool :=
  this ← get h a;
  Ok (match parent this with None => true | Some _ => false end).

(** *** Lineage *)

(** [ancestors(ancestors = [])]: one unit of [fuel] for each call.  The
    test on [parent this] is [this.isRoot()]. *)
Fixpoint ancestors (fuel : nat) (h : heap) (a : loc) (ancestors_ : option (list loc))
  : result (list loc) :=
  match fuel with
  | O => Throw Exhausted
  | S fuel =>
    let acc := default [] ancestors_ in
    this ← get h a;
    match parent this with
    | None => Ok acc
    | Some p => ancestors fuel h p (Some (acc ++ [p]))
    end
  end.

(** [lineage()] *)
Definition lineage (fuel : nat) (h : heap) (a : loc) : result (list loc) :=
  ancestors fuel h a (Some [a]).

(** [parents()] *)
Definition parents (fuel : nat) (h : heap) (a : loc) : result (list loc) :=
  ancestors fuel h a None.

(** *** Metrics *)

(** [index()] *)
Definition index (h : heap) (a : loc) : result value :=
  this ← get h a;
  match parent this with
  | None => Ok VNull
  | Some p => P ← get h p; Ok (VNum (indexOf (children P) a))
  end.

(** [depth()] *)
Fixpoint depth (fuel : nat) (h : heap) (a : loc) : result Z :=
  match fuel with
  | O => Throw Exhausted
  | S fuel =>
    this ← get h a;
    match parent this with
    | None => Ok 0%Z
    | Some p => d ← depth fuel h p; Ok (1 + d)%Z
    end
  end.

(** *** Children *)

(** [child(key)] *)
Definition child (h : heap) (a : loc) (key : value) : result value :=
  this ← get h a;
  find (λ c, child ← get h c; Ok (strict_eq (id child) key)) (children this).

(** *** Siblings *)

(** [next(count = 1)]: [this.parent.nodes] throws on a root, whose parent
    is [null]. *)
Definition next (h : heap) (a : loc) (count : option Z) : result value :=
  let count := default 1%Z count in
  this ← get h a;
  match parent this with
  | None => Throw TypeError
  | Some p =>
    P ← get h p;
    i ← index h a;
    Ok (array_get VNode (children P) (plus i count))
  end.

(** [previous(count = 1)] *)
Definition previous (h : heap) (a : loc) (count : option Z) : result value :=
  let count := default 1%Z count in
  next h a (Some (- count)%Z).

(** *** Helpers *)

(** [Node.remove(array, ...elements)]: the loop runs [index] from
    [array.length - 1] down to 0 and splices out the elements found;
    [remove_from n] is the loop when [index] is [n - 1]. *)
Fixpoint remove_from (n : nat) (array : list loc) (elements : list loc) : list loc :=
  match n with
  | O => array
  | S index =>
    match array !! index with
    | Some element =>
      if includes elements element
      then remove_from index (delete index array) elements
      else remove_from index array elements
    | None => remove_from index array elements
    end
  end.

Definition remove (array : list loc) (elements : list loc) : list loc :=
  remove_from (length array) array elements.

(** *** Parent *)

(** [setParent(parentNode)]: the arrays are changed in place, so each step
    reads the store the step before left. *)
Definition setParent (a : loc) (parentNode : option loc) : M unit :=
  this ← read a;
  match parent this with
  | Some p => P ← read p; set_children p (remove (children P) [a])
  | None => mret tt
  end;;
  match parentNode with
  | Some q => Q ← read q; set_children q (children Q ++ [a])
  | None => mret tt
  end;;
  set_parent a parentNode.

(** [setRoot()] *)
Definition setRoot (a : loc) : M unit := setParent a None.

(** *** Adding *)

(** [add(node)] *)
Definition add (a : loc) (node : loc) : M loc :=
  setParent node (Some a);;
  mret node.

(** A [for (const x of l)] loop whose body changes the store. *)
Fixpoint for_each {A} (l : list A) (body : A → M unit) : M unit :=
  match l with
  | [] => mret tt
  | x :: l => body x;; for_each l body
  end.

(** [push(...nodes)] *)
Definition push (a : loc) (nodes : list loc) : M loc :=
  for_each nodes (λ node, add a node;; mret tt);;
  mret a.

(** *** Iterating *)

(** [[Symbol.iterator]()]: the nodes yielded by a whole run of the
    generator over a store that does not change meanwhile; one unit of
    [fuel] for each call of [generator]. *)
Fixpoint iterator (fuel : nat) (h : heap) (a : loc) : result (list loc) :=
  match fuel with
  | O => Throw Exhausted
  | S fuel =>
    this ← get h a;
    rest ← map_result (iterator fuel h) (children this);
    Ok (a :: concat rest)
  end.

(** *** Comparison *)

Section Comparison.

(** The language's [<] on two keys. *)
Variable less_than : value → value → bool.




End Comparison.

(** *** Encoder and Parser *)

(** The constructor parameter of [encode]: it takes the node and the
    [encode] closure. *)
Definition builder : Type := heap → loc → (unit → result (list value)) → result value.

Definition default_builder : builder :=
  λ h node encode,
    this ← get h node;
    nodes ← encode ();
    Ok (VObj [("id", id this); ("content", content this); ("nodes", VArr nodes)]).

(** [encode(constructor)] *)
Fixpoint encode (fuel : nat) (h : heap) (a : loc) (constructor : option builder)
  : result value :=
  match fuel with
  | O => Throw Exhausted
  | S fuel =>
    let encode_ := λ _ : unit,
      this ← get h a;
      map_result (λ node, encode fuel h node constructor) (children this) in
    default default_builder constructor h a encode_
  end.

(** The three properties that [parse] reads. *)
Inductive prop : Type := Pid | Pcontent | Pnodes.

Definition prop_name (p : prop) : string :=
  match p with
  | Pid => "id"
  | Pcontent => "content"
  | Pnodes => "nodes"
  end.

(** [object.id], [object.content], [object.nodes]: a node answers with its
    accessors, an object literal with its own property, [null] and
    [undefined] throw, anything else has no such property. *)
Definition get_prop (h : heap) (object : value) (p : prop) : result value :=
  match object with
  | VUndefined | VNull => Throw TypeError
  | VObj fields => Ok (field fields (prop_name p))
  | VNode a =>
    this ← get h a;
    Ok (match p with
        | Pid => id this
        | Pcontent => content this
        | Pnodes => VArr (VNode <$> children this)
        end)
  | _ => Ok VUndefined
  end.

Fixpoint chars (s : string) : list value :=
  match s with
  | EmptyString => []
  | String c s => VStr (String c EmptyString) :: chars s
  end.

(** What [for (const object of nodes)] runs over: the elements of an
    array, the characters of a string, the nodes a node yields; anything
    else is not iterable. *)
Definition iterable (fuel : nat) (h : heap) (nodes : value) : result (list value) :=
  match nodes with
  | VArr xs => Ok xs
  | VStr s => Ok (chars s)
  | VNode a => iterator fuel h a ≫= λ l : list loc, Ok (VNode <$> l)
  | _ => Throw TypeError
  end.

(** The constructor parameter of [parse]. *)
Definition destructure : Type := heap → value → result value.

Definition default_destructure : destructure :=
  λ h object,
    id ← get_prop h object Pid;
    content ← get_prop h object Pcontent;
    nodes ← get_prop h object Pnodes;
    Ok (VObj [("id", id); ("content", content); ("nodes", nodes)]).

Definition lift {A} (f : heap → result A) : M A :=
  λ h, a ← f h; Ok (a, h).

(** [Node.parse(object, constructor)] *)
Fixpoint parse (fuel : nat) (object : value) (constructor : option destructure)
  : M loc :=
  match fuel with
  | O => λ _, Throw Exhausted
  | S fuel =>
    r ← lift (λ h, default default_destructure constructor h object);
    id ← lift (λ h, get_prop h r Pid);
    content ← lift (λ h, get_prop h r Pcontent);
    nodes ← lift (λ h, get_prop h r Pnodes);
    node ← new id content;
    objects ← lift (λ h, iterable fuel h nodes);
    for_each objects (λ object,
      child ← parse fuel object constructor;
      add node child;;
      mret tt);;
    mret node
  end.

(** *** The other methods *)

(** [getParent(count = 1)] *)
Fixpoint getParent (fuel : nat) (h : heap) (a : loc) (count : option Z)
  : result value :=
  match fuel with
  | O => Throw Exhausted
  | S fuel =>
    let count := default 1%Z count in
    if (count <? 1)%Z then Ok (VNode a)
    else
      this ← get h a;
      match parent this with
      | None => Ok VNull
      | Some p => getParent fuel h p (Some (count - 1)%Z)
      end
  end.

(** [node(key)] *)
Definition node (h : heap) (a : loc) (key : value) : result value :=
  child h a key.

(** [hasChildren()] *)
Definition hasChildren (h : heap) (a : loc) : result bool :=
  this ← get h a;
  Ok (0 <? Z.of_nat (length (children this)))%Z.

(** [hasNodes()] *)
Definition hasNodes (h : heap) (a : loc) : result bool := hasChildren h a.

(** [root()] *)
Fixpoint root (fuel : nat) (h : heap) (a : loc) : result loc :=
  match fuel with
  | O => Throw Exhausted
  | S fuel =>
    this ← get h a;
    match parent this with
    | None => Ok a
    | Some p => root fuel h p
    end
  end.

(** [isLeaf()] *)
Definition isLeaf (h : heap) (a : loc) : result bool :=
  b ← hasNodes h a;
  Ok (negb b).

(** [array.filter(f)] with a test that reads the store. *)
Fixpoint filter_result (f : loc → result bool) (array : list loc)
  : result (list loc) :=
  match array with
  | [] => Ok []
  | x :: array =>
    b ← f x;
    rest ← filter_result f array;
    Ok (if b : bool then x :: rest else rest)
  end.

(** [leaves()] *)
Definition leaves (fuel : nat) (h : heap) (a : loc) : result (list loc) :=
  all ← iterator fuel h a;
  filter_result (isLeaf h) all.

(** [siblings()] *)
Definition siblings (h : heap) (a : loc) : result (list loc) :=
  this ← get h a;
  match parent this with
  | None => Ok []
  | Some p => P ← get h p; Ok (filter (λ node, node ≠ a) (children P))
  end.

(** [height()]: the test on [children this] is [this.isLeaf()]; in the
    other case [Math.max] takes the heights of the children, one at
    least. *)
Fixpoint height (fuel : nat) (h : heap) (a : loc) : result Z :=
  match fuel with
  | O => Throw Exhausted
  | S fuel =>
    this ← get h a;
    match children this with
    | [] => Ok 0%Z
    | node :: nodes =>
      x ← height fuel h node;
      xs ← map_result (height fuel h) nodes;
      Ok (1 + foldl Z.max x xs)%Z
    end
  end.

(** [breadth()] *)
Definition breadth (h : heap) (a : loc) : result Z :=
  this ← get h a;
  match parent this with
  | None => Ok 1%Z
  | Some p => P ← get h p; Ok (Z.of_nat (length (children P)))
  end.

(** *** Duplicating *)

(** What the model does not know, or cannot hold in a [value]:
    - of the objects behind [VRef], the name of the constructor, the
      property name, and what [Object.assign] copies from them;
    - the array that carries the properties of an object literal;
    - of an object literal that has a key [__proto__], which may stand
      for another prototype or for an own property that [Object.assign]
      gives to the setter of the prototype: the name of its constructor,
      its property name, and the copy that [Object.assign] makes. *)
Record opaque : Type := Opaque {
  (** [object.constructor.name] *)
  constructor_name : nat → result value;
  (** [object.name] *)
  name : nat → result value;
  (** [Object.assign([], object)] *)
  assign_array : nat → result value;
  (** [Object.assign({}, object)] *)
  assign_object : nat → result value;
  (** [Object.assign([], object)] for an object literal with these
      properties: an array that carries them *)
  array_with : list (string * value) → value;
  (** [object.constructor.name] for an object literal with a key
      [__proto__] *)
  proto_constructor_name : list (string * value) → result value;
  (** [object.name] for an object literal with a key [__proto__] *)
  proto_name : list (string * value) → result value;
  (** [Object.assign({}, object)] for an object literal with a key
      [__proto__] *)
  proto_assign_object : list (string * value) → result value
}.

(** The values that count as true in a condition. *)
Definition truthy (v : value) : bool :=
  match v with
  | VUndefined | VNull | VNaN => false
  | VBool b => b
  | VNum z => negb (z =? 0)%Z
  | VStr s => negb (String.eqb s "")
  | VRef _ | VNode _ | VArr _ | VObj _ => true
  end.

(** Whether an object literal has an own property. *)
Fixpoint has_field (fields : list (string * value)) (name : string) : bool :=
  match fields with
  | [] => false
  | (k, _) :: fields => String.eqb k name || has_field fields name
  end.

Section Duplicating.

Variable o : opaque.

(** [c.name], where [c] is what [object.constructor] gave. *)
Definition name_of (c : value) : result value :=
  match c with
  | VUndefined | VNull => Throw TypeError
  | VObj fields =>
    if has_field fields "__proto__" then proto_name o fields
    else Ok (field fields "name")
  | VRef l => name o l
  | _ => Ok VUndefined
  end.

(** [Node.typeOf(object)]: an object literal without a key [__proto__]
    has the prototype of the plain objects; it answers with its own
    property constructor when it has one, and with [Object] otherwise. *)
Definition typeOf (object : value) : result value :=
  if truthy object then
    match object with
    | VBool _ => Ok (VStr "Boolean")
    | VNum _ | VNaN => Ok (VStr "Number")
    | VStr _ => Ok (VStr "String")
    | VNode _ => Ok (VStr "Node")
    | VArr _ => Ok (VStr "Array")
    | VObj fields =>
      if has_field fields "__proto__" then proto_constructor_name o fields
      else if has_field fields "constructor"
      then name_of (field fields "constructor")
      else Ok (VStr "Object")
    | VRef l => constructor_name o l
    | VUndefined | VNull => Ok VNull
    end
  else Ok VNull.

(** [Node.clone(object)], the static helper: the [switch] compares with
    [===].  [Object.assign] makes a new array or object that holds the
    elements of the array, or the own properties of the object; a literal
    has no identity in a [value], so the copy of [VArr xs] is [VArr xs]
    and the copy of [VObj fields] is [VObj fields]. *)
Definition clone_object (object : value) : result value :=
  t ← typeOf object;
  if strict_eq t (VStr "Array") then
    match object with
    | VObj fields => Ok (array_with o fields)
    | VRef l => assign_array o l
    | _ => Ok object
    end
  else if strict_eq t (VStr "Object") then
    match object with
    | VObj fields =>
      if has_field fields "__proto__" then proto_assign_object o fields
      else Ok (VObj fields)
    | VRef l => assign_object o l
    | _ => Ok object
    end
  else Ok object.

(** [detach()] *)
Definition detach (a : loc) : M loc :=
  this ← read a;
  content ← lift (λ _, clone_object (content this));
  new (id this) content.

(** [clone()]: the children array of the node is not changed while the
    loop runs, only new nodes are. *)
Fixpoint clone (fuel : nat) (a : loc) : M loc :=
  match fuel with
  | O => λ _, Throw Exhausted
  | S fuel =>
    detachedNode ← detach a;
    this ← read a;
    for_each (children this) (λ node,
      copy ← clone fuel node;
      push detachedNode [copy];;
      mret tt);;
    mret detachedNode
  end.

End Duplicating.

End Node.

(** ** The tree of the guide (docs/guide.md, Setup) *)

Module Guide.

(** [nodes[0].push(nodes[1], nodes[2].push(nodes[3], nodes[4]))]: the
    inner [push] is an argument of the outer one and runs first. *)
Definition setup : Node.M (list loc) :=
  n0 ← Node.new (VNum 0%Z) (VStr "zero");
  n1 ← Node.new (VNum 1%Z) (VStr "one");
  n2 ← Node.new (VNum 2%Z) (VStr "two");
  n3 ← Node.new (VNum 3%Z) (VStr "three");
  n4 ← Node.new (VNum 4%Z) (VStr "four");
  n2' ← Node.push n2 [n3; n4];
  Node.push n0 [n1; n2'];;
  mret [n0; n1; n2; n3; n4].

(** The store after the setup; [nodes[i]] is at address [i]. *)
Definition store : Node.heap :=
  Eval vm_compute in
    match setup [] with
    | Ok (_, h) => h
    | Throw _ => []
    end.

End Guide.

(** ** A node whose content is undefined *)

Module Blank.

(** [const node = new Node({ id: 0, content: 'zero' }); node.content = undefined] *)
Definition setup : Node.M loc :=
  node ← Node.new (VNum 0%Z) (VStr "zero");
  Node.set_content node VUndefined;;
  mret node.

Definition store : Node.heap :=
  Eval vm_compute in
    match setup [] with
    | Ok (_, h) => h
    | Throw _ => []
    end.

End Blank.

(** ** Trees in the store *)

(** [chain h a l]: [l] is the parent of [a], its grandparent and so on, the
    nearest first, up to the root; [l] is empty when [a] is a root.  A node
    on a cycle of parent links has no chain. *)
Inductive chain (h : Node.heap) : loc → list loc → Prop :=
| chain_root a this :
    h !! a = Some this → Node.parent this = None → chain h a []
| chain_step a this p l :
    h !! a = Some this → Node.parent this = Some p → chain h p l →
    chain h a (p :: l).


(** What [a.setParent(new)] makes of the node [n] at address [x], when
    the parent of [a] was [old]: [a] leaves the children of [old], joins
    the children of [new] at the end, and takes [new] as its parent. *)
Definition reparented (a : loc) (old new : option loc) (x : loc)
    (n : Node.properties) : Node.properties :=
  let cs := Node.children n in
  let cs := if decide (old = Some x) then filter (λ y, y ≠ a) cs else cs in
  let cs := if decide (new = Some x) then cs ++ [a] else cs in
  Node.Properties (Node.id n) (Node.content n)
    (if decide (x = a) then new else Node.parent n) cs.

(** [identical v w]: [v] and [w] are one value of one type: the same
    [undefined], [null], boolean, number or string, or the same object.
    [NaN] is identical to nothing, and neither is a literal, whose
    identity is not tracked. *)
Inductive identical : value → value → Prop :=
| identical_undefined : identical VUndefined VUndefined
| identical_null : identical VNull VNull
| identical_bool b : identical (VBool b) (VBool b)
| identical_num z : identical (VNum z) (VNum z)
| identical_str s : identical (VStr s) (VStr s)
| identical_ref l : identical (VRef l) (VRef l)
| identical_node a : identical (VNode a) (VNode a).

(** [misses h key c]: the child [c] has an id that is not [key]. *)
Definition misses (h : Node.heap) (key : value) (c : loc) : Prop :=
  ∃ this, h !! c = Some this ∧ ¬ identical (Node.id this) key.

(** [hits h key c]: the child [c] has the id [key]. *)
Definition hits (h : Node.heap) (key : value) (c : loc) : Prop :=
  ∃ this, h !! c = Some this ∧ identical (Node.id this) key.

(** [changed f h h']: the store [h'] is [h] with the node at each address [x]
    changed by [f x]. *)
Definition changed (f : loc → Node.properties → Node.properties)
    (h h' : Node.heap) : Prop :=
  ∀ x, h' !! x = f x <$> h !! x.

(** The invariants of the links: a node listed among the children of [p]
    is in the store and has [p] as its parent; the parent of a node is in
    the store and lists the node; no array of children lists a node
    twice. *)
Record consistent (h : Node.heap) : Prop := Consistent {
  child_has_parent : ∀ p nP c,
    h !! p = Some nP → c ∈ Node.children nP →
    ∃ nc, h !! c = Some nc ∧ Node.parent nc = Some p;
  parent_has_child : ∀ c nc p,
    h !! c = Some nc → Node.parent nc = Some p →
    ∃ nP, h !! p = Some nP ∧ c ∈ Node.children nP;
  children_once : ∀ p nP,
    h !! p = Some nP → NoDup (Node.children nP)
}.

(** A tree as data: the id and the content of a node, and the trees of
    its children in order. *)
Inductive tree : Type :=
| Tree (tid tcontent : value) (kids : list tree).

Fixpoint height (t : tree) : nat :=
  match t with
  | Tree _ _ kids => S (foldr (λ k n, max (height k) n) 0%nat kids)
  end.

(** [subtree h a t]: the nodes reached from [a] through the children
    arrays form the finite tree [t]. *)
Inductive subtree (h : Node.heap) : loc → tree → Prop :=
| subtree_node a this kids :
    h !! a = Some this →
    Forall2 (subtree h) (Node.children this) kids →
    subtree h a (Tree (Node.id this) (Node.content this) kids).

(** [preorder h a l]: [l] is [a], then the pre-order sequence of each of
    its children, in the order of the children. *)
Inductive preorder (h : Node.heap) : loc → list loc → Prop :=
| preorder_node a this rest :
    h !! a = Some this →
    Forall2 (preorder h) (Node.children this) rest →
    preorder h a (a :: concat rest).

(** The record of a tree, with the field names of the code. *)
Fixpoint record (t : tree) : value :=
  match t with
  | Tree i c kids =>
    VObj [("id", i); ("content", c); ("nodes", VArr (map record kids))]
  end.

(** The record of a tree, with the field names of the specification. *)
Fixpoint record_of_the_spec (t : tree) : value :=
  match t with
  | Tree i c kids =>
    VObj [("id", i); ("content", c);
          ("children", VArr (map record_of_the_spec kids))]
  end.

(** The tree that [parse] builds from the record of [t]: a content that
    is [undefined] takes the default of the constructor. *)
Fixpoint parsed (t : tree) : tree :=
  match t with
  | Tree i c kids => Tree i (or_default VNull c) (map parsed kids)
  end.

Definition is_undefined (v : value) : bool :=
  match v with VUndefined => true | _ => false end.

(** No node of the tree has [undefined] as its content. *)
Fixpoint no_undefined (t : tree) : bool :=
  match t with
  | Tree _ c kids => negb (is_undefined c) && forallb no_undefined kids
  end.

(** [tree_in h lo hi par a t]: the node at [a] and its descendants form
    the tree [t], they all lie at addresses from [lo] up to [hi]
    (excluded), the parent link of [a] is [par], and the parent link of
    every descendant is the node that lists it. *)
Inductive tree_in (h : Node.heap) : loc → loc → option loc → loc → tree → Prop :=
| tree_in_node lo hi par a this kids :
    (lo ≤ a < hi)%nat →
    h !! a = Some this →
    Node.parent this = par →
    Forall2 (tree_in h (S a) hi (Some a)) (Node.children this) kids →
    tree_in h lo hi par a (Tree (Node.id this) (Node.content this) kids).

(** The body of the loop of [parse]. *)
Definition parse_child (fuel : nat) (node : loc) (object : value) : Node.M unit :=
  child ← Node.parse fuel object None;
  Node.add node child;;
  mret tt.

(** [parses fuel t]: from the record of [t], [parse] builds the tree
    [parsed t] out of new nodes and leaves the old ones as they are. *)
Definition parses (fuel : nat) (t : tree) : Prop :=
  ∀ h : Node.heap, ∃ h',
    Node.parse fuel (record t) None h = Ok (length h, h') ∧
    tree_in h' (length h) (length h') None (length h) (parsed t) ∧
    ∀ x, (x < length h)%nat → h' !! x = h !! x.

(** ** Notions for the other methods *)

(** [extends h0 h]: the store [h] holds every node of [h0] as it is. *)
Definition extends (h0 h : Node.heap) : Prop :=
  ∀ x n, h0 !! x = Some n → h !! x = Some n.

(** [builds h0 m t]: in any store that extends [h0], the computation [m]
    returns a new node that is the root of the tree [t], made of new
    nodes only, and leaves the nodes that existed as they are. *)
Definition builds (h0 : Node.heap) (m : Node.M loc) (t : tree) : Prop :=
  ∀ h : Node.heap, extends h0 h →
    ∃ h', m h = Ok (length h, h') ∧
          tree_in h' (length h) (length h') None (length h) t ∧
          ∀ x, (x < length h)%nat → h' !! x = h !! x.

(** The body of a loop that builds a child from [x] and adds it to
    [node]. *)
Definition attach {X} (build : X → Node.M loc) (node : loc) (x : X) : Node.M unit :=
  child ← build x;
  Node.add node child;;
  mret tt.

(** The values on which [Node.clone(object)] answers with an equal
    value, whatever is not known: all but the objects behind [VRef] and
    the object literals with a key [constructor] or [__proto__]. *)
Definition plain (v : value) : bool :=
  match v with
  | VRef _ => false
  | VObj fields =>
    negb (Node.has_field fields "constructor") &&
    negb (Node.has_field fields "__proto__")
  | _ => true
  end.

Fixpoint plain_tree (t : tree) : bool :=
  match t with
  | Tree _ c kids => plain c && forallb plain_tree kids
  end.

(** [looping h nodes]: every node of [nodes] has a parent, which is in
    [nodes] again: the parent links from these nodes never reach a root. *)
Definition looping (h : Node.heap) (nodes : list loc) : Prop :=
  ∀ x, x ∈ nodes →
    ∃ this p, h !! x = Some this ∧ Node.parent this = Some p ∧ p ∈ nodes.


(** The shape of a record: what is made of an id, a content and the
    records of the children. *)
Definition shape : Type := value → value → list value → value.

Fixpoint record_with (s : shape) (t : tree) : value :=
  match t with
  | Tree i c kids => s i c (map (record_with s) kids)
  end.

(** A constructor for [encode] and one for [parse] that undo each other
    on the records of shape [s]. *)
Record inverse_pair (s : shape) (b : Node.builder) (d : Node.destructure)
  : Prop := InversePair {
  builds_shape : ∀ (h : Node.heap) a this encode rs,
    h !! a = Some this → encode () = Ok rs →
    b h a encode = Ok (s (Node.id this) (Node.content this) rs);
  reads_shape : ∀ (h : Node.heap) i c rs,
    ∃ r, d h (s i c rs) = Ok r ∧
         Node.get_prop h r Node.Pid = Ok i ∧
         Node.get_prop h r Node.Pcontent = Ok c ∧
         Node.get_prop h r Node.Pnodes = Ok (VArr rs)
}.

(** The custom constructors of docs/guide.md. *)
Module Custom.

(** [object.customId] and the like: no node, array, string, number or
    boolean has such a property, and an object behind [VRef] is taken not
    to have one. *)
Definition get (object : value) (name : string) : result value :=
  match object with
  | VUndefined | VNull => Throw TypeError
  | VObj fields => Ok (field fields name)
  | _ => Ok VUndefined
  end.

Definition record_shape : shape :=
  λ i c rs,
    VObj [("customId", i); ("customContent", c); ("customNodes", VArr rs)].

(** [(node, encode) => ({ customId: node.id, customContent: node.content,
    customNodes: encode() })] *)
Definition builder : Node.builder :=
  λ h node encode,
    this ← Node.get h node;
    nodes ← encode ();
    Ok (record_shape (Node.id this) (Node.content this) nodes).

(** [(object) => ({ id: object.customId, content: object.customContent,
    nodes: object.customNodes })] *)
Definition destructure : Node.destructure :=
  λ h object,
    id ← get object "customId";
    content ← get object "customContent";
    nodes ← get object "customNodes";
    Ok (VObj [("id", id); ("content", content); ("nodes", nodes)]).

End Custom.

(** The number of children of the node at [x], when there is one. *)
Definition childless (h : Node.heap) (x : loc) : Prop :=
  ∃ this, h !! x = Some this ∧ Node.children this = [].

(** Whether the node at [x] has no child. *)
Definition is_leaf_at (h : Node.heap) (x : loc) : bool :=
  match h !! x with
  | Some this => bool_decide (Node.children this = [])
  | None => false
  end.


(** An opaque world in which nothing is known to fail; the examples do
    not depend on it. *)
Definition quiet : Node.opaque :=
  Node.Opaque (λ _, Ok VUndefined) (λ _, Ok VUndefined)
    (λ l, Ok (VRef l)) (λ l, Ok (VRef l)) (λ _, VArr [])
    (λ _, Ok VUndefined) (λ _, Ok VUndefined) (λ fields, Ok (VObj fields)).

(** * Properties *)

Lemma get_Some (h : Node.heap) a this : h !! a = Some this → Node.get h a = Ok this.
Proof. unfold Node.get. by intros ->. Qed.

Ltac get_node H := rewrite (get_Some _ _ _ H); simpl.

(** ** Ancestors, lineage and depth *)

Lemma ancestors_chain h a l :
  chain h a l → ∀ fuel acc, (length l < fuel)%nat →
  Node.ancestors fuel h a (Some acc) = Ok (acc ++ l).
Proof.
  induction 1 as [a this Ha Hp | a this p l Ha Hp _ IH]; intros [|fuel] acc Hf;
    simpl in Hf; try lia; simpl; get_node Ha; rewrite Hp.
  - by rewrite app_nil_r.
  - rewrite IH by lia. by rewrite <- app_assoc.
Qed.

Lemma ancestors_default h a l fuel :
  chain h a l → (length l < fuel)%nat → Node.ancestors fuel h a None = Ok l.
Proof.
  intros Hc Hf. destruct fuel as [|fuel]; [lia|].
  pose proof (ancestors_chain h a l Hc (S fuel) [] Hf) as H. exact H.
Qed.

Lemma depth_chain h a l :
  chain h a l → ∀ fuel, (length l < fuel)%nat →
  Node.depth fuel h a = Ok (Z.of_nat (length l)).
Proof.
  induction 1 as [a this Ha Hp | a this p l Ha Hp _ IH]; intros [|fuel] Hf;
    simpl in Hf; try lia; simpl Node.depth; get_node Ha; rewrite Hp; [done|].
  rewrite IH by lia. simpl. f_equal. lia.
Qed.

(** C6: in a tree without cycles, [depth()] is 0 on a root and 1 plus the
    depth of the parent otherwise, and it is the length of [ancestors()]. *)
Theorem depth_is_length_of_ancestors h a l fuel :
  chain h a l → (length l < fuel)%nat →
  ∃ d anc,
    Node.depth fuel h a = Ok d ∧
    Node.ancestors fuel h a None = Ok anc ∧
    d = Z.of_nat (length anc) ∧
    match l with
    | [] => Node.isRoot h a = Ok true ∧ d = 0%Z
    | p :: _ =>
      Node.isRoot h a = Ok false ∧
      ∃ dp, Node.depth fuel h p = Ok dp ∧ d = (1 + dp)%Z
    end.
Proof.
  intros Hc Hf. exists (Z.of_nat (length l)), l.
  split; [by apply depth_chain|]. split; [by apply ancestors_default|].
  split; [done|].
  inversion Hc as [a' this Ha Hp | a' this p l' Ha Hp Hc']; subst.
  - unfold Node.isRoot. get_node Ha. by rewrite Hp.
  - unfold Node.isRoot. get_node Ha. rewrite Hp. split; [done|].
    exists (Z.of_nat (length l')). split.
    + apply depth_chain; [done|]. simpl in Hf. lia.
    + simpl length. lia.
Qed.

Lemma guide_chain_4 : chain Guide.store 4 [2; 0]%nat.
Proof.
  eapply chain_step; [reflexivity | reflexivity |].
  eapply chain_step; [reflexivity | reflexivity |].
  eapply chain_root; reflexivity.
Qed.

Lemma depth_is_length_of_ancestors_witness :
  ∃ d anc,
    Node.depth 3 Guide.store 4 = Ok d ∧
    Node.ancestors 3 Guide.store 4 None = Ok anc ∧
    d = Z.of_nat (length anc) ∧
    (Node.isRoot Guide.store 4 = Ok false ∧
     ∃ dp, Node.depth 3 Guide.store 2 = Ok dp ∧ d = (1 + dp)%Z).
Proof.
  apply (depth_is_length_of_ancestors Guide.store 4 [2; 0]%nat 3).
  - exact guide_chain_4.
  - simpl. lia.
Defined.

(** C7: in a tree without cycles, [lineage()] is the node followed by
    [ancestors()], and [ancestors()] is the chain of parents, the nearest
    first, empty on a root. *)
Theorem lineage_is_node_then_ancestors h a l fuel :
  chain h a l → (length l < fuel)%nat →
  Node.ancestors fuel h a None = Ok l ∧
  Node.lineage fuel h a = Ok (a :: l) ∧
  (Node.isRoot h a = Ok true ↔ l = []).
Proof.
  intros Hc Hf. split; [by apply ancestors_default|]. split.
  - unfold Node.lineage. by rewrite (ancestors_chain h a l Hc fuel [a] Hf).
  - inversion Hc as [a' this Ha Hp | a' this p l' Ha Hp Hc']; subst;
      unfold Node.isRoot; get_node Ha; rewrite Hp; split; intros; done.
Qed.

Lemma lineage_is_node_then_ancestors_witness :
  Node.ancestors 3 Guide.store 4 None = Ok [2; 0]%nat ∧
  Node.lineage 3 Guide.store 4 = Ok [4; 2; 0]%nat ∧
  (Node.isRoot Guide.store 4 = Ok true ↔ [2; 0]%nat = []).
Proof.
  apply (lineage_is_node_then_ancestors Guide.store 4 [2; 0]%nat 3).
  - exact guide_chain_4.
  - simpl. lia.
Defined.

(** ** Comparison *)



(** ** Children *)

Lemma strict_eq_true v w : strict_eq v w = true → v = w.
Proof.
  destruct v, w; simpl; try discriminate; try done.
  - intros H. f_equal. by apply Bool.eqb_prop.
  - intros H. f_equal. by apply Z.eqb_eq.
  - intros H. f_equal. by apply String.eqb_eq.
  - intros H. f_equal. by apply Nat.eqb_eq.
  - intros H. f_equal. by apply Nat.eqb_eq.
Qed.

Lemma strict_eq_identical v w : strict_eq v w = true ↔ identical v w.
Proof.
  split.
  - intros H. pose proof (strict_eq_true v w H) as <-.
    destruct v; simpl in H; try discriminate; constructor.
  - intros []; simpl; try done.
    + by destruct b.
    + apply Z.eqb_refl.
    + apply String.eqb_refl.
    + apply Nat.eqb_refl.
    + apply Nat.eqb_refl.
Qed.

Lemma identical_same v w : identical v w → v = w ∧ type_of v = type_of w.
Proof. by intros []. Qed.

Lemma find_by_id h key nodes :
  Forall (λ c, is_Some (h !! c)) nodes →
  (∃ l1 c l2, nodes = l1 ++ c :: l2 ∧ Forall (misses h key) l1 ∧ hits h key c ∧
     find (λ c, child ← Node.get h c; Ok (strict_eq (Node.id child) key)) nodes
     = Ok (VNode c)) ∨
  (Forall (misses h key) nodes ∧
     find (λ c, child ← Node.get h c; Ok (strict_eq (Node.id child) key)) nodes
     = Ok VUndefined).
Proof.
  induction 1 as [|c nodes [this Hc] _ IH]; [by right|].
  simpl. get_node Hc.
  destruct (strict_eq (Node.id this) key) eqn:E.
  - left. exists [], c, nodes. repeat split; [constructor|].
    exists this. split; [done|]. by apply strict_eq_identical.
  - assert (misses h key c) as Hm.
    { exists this. split; [done|]. intros Hi%strict_eq_identical. congruence. }
    destruct IH as [(l1 & d & l2 & -> & Hl1 & Hd & Hfind) | [Hall Hfind]].
    + left. exists (c :: l1), d, l2. repeat split; [by constructor|done|done].
    + right. split; [by constructor|done].
Qed.

(** C10: [child(key)] compares ids with [===]: a child is taken exactly
    when its id and [key] are one value of one type (the string "1" is
    not the number 1, the number 1 is the number 1); the first such child
    in the order of the children is returned, and [undefined] when there
    is none. *)
Theorem child_compares_strictly h a this key :
  h !! a = Some this →
  Forall (λ c, is_Some (h !! c)) (Node.children this) →
  ((∃ l1 c l2, Node.children this = l1 ++ c :: l2 ∧
      Forall (misses h key) l1 ∧ hits h key c ∧
      Node.child h a key = Ok (VNode c)) ∨
   (Forall (misses h key) (Node.children this) ∧
      Node.child h a key = Ok VUndefined)) ∧
  (∀ v, strict_eq v key = true ↔ identical v key) ∧
  (∀ v, identical v key → v = key ∧ type_of v = type_of key) ∧
  (∀ v, strict_eq v key = true → v = key ∧ type_of v = type_of key) ∧
  strict_eq (VStr "1") (VNum 1) = false ∧
  strict_eq (VNum 1) (VStr "1") = false ∧
  strict_eq (VNum 1) (VNum 1) = true ∧
  strict_eq (VStr "1") (VStr "1") = true.
Proof.
  intros Ha Hall. split; [|split; [|split; [|split; [|done]]]].
  - unfold Node.child. get_node Ha. by apply find_by_id.
  - intros v. apply strict_eq_identical.
  - intros v. apply identical_same.
  - intros v Hv. apply strict_eq_true in Hv. by subst.
Qed.

Lemma child_compares_strictly_witness :
  Node.child Guide.store 0 (VNum 2) = Ok (VNode 2) ∧
  Node.child Guide.store 0 (VStr "2") = Ok VUndefined.
Proof.
  assert (Forall (λ c, is_Some (Guide.store !! c)) [1; 2]%nat) as Hall
    by (repeat constructor; eexists; reflexivity).
  split.
  - destruct (child_compares_strictly Guide.store 0
                (Node.Properties (VNum 0) (VStr "zero") None [1; 2]%nat)
                (VNum 2) eq_refl Hall) as [[(l1 & c & l2 & Hsplit & _ & Hhit & Hchild)
                                            | [Hmiss _]] _].
    + rewrite Hchild. destruct Hhit as (this & Hthis & Hid).
      destruct l1 as [|x [|y l1]]; simpl in Hsplit.
      * injection Hsplit as <- _. simpl in Hthis. injection Hthis as <-.
        inversion Hid.
      * injection Hsplit as _ <- _. reflexivity.
      * injection Hsplit as _ _ Hnil. by destruct l1.
    + exfalso. inversion Hmiss as [|? ? _ Hrest]; subst.
      inversion Hrest as [|? ? (this & Hthis & Hid) _]; subst.
      simpl in Hthis. injection Hthis as <-. apply Hid. constructor.
  - destruct (child_compares_strictly Guide.store 0
                (Node.Properties (VNum 0) (VStr "zero") None [1; 2]%nat)
                (VStr "2") eq_refl Hall) as [[(l1 & c & l2 & Hsplit & _ & Hhit & _)
                                            | [_ Hchild]] _].
    + exfalso. destruct Hhit as (this & Hthis & Hid).
      destruct l1 as [|x [|y l1]]; simpl in Hsplit.
      * injection Hsplit as <- _. simpl in Hthis. injection Hthis as <-.
        inversion Hid.
      * injection Hsplit as _ <- _. simpl in Hthis. injection Hthis as <-.
        inversion Hid.
      * injection Hsplit as _ _ Hnil. by destruct l1.
    + exact Hchild.
Defined.

(** ** Siblings *)

Lemma array_get_outside {A} (inj : A → value) (array : list A) k :
  (k < 0 ∨ Z.of_nat (length array) ≤ k)%Z → array_get inj array k = VUndefined.
Proof.
  intros Hk. unfold array_get. destruct (k <? 0)%Z eqn:E; [done|].
  apply Z.ltb_ge in E. rewrite lookup_ge_None_2; [done|lia].
Qed.

Lemma array_get_inside {A} (inj : A → value) (array : list A) k :
  (0 ≤ k < Z.of_nat (length array))%Z →
  ∃ x, array !! Z.to_nat k = Some x ∧ array_get inj array k = inj x.
Proof.
  intros Hk. unfold array_get. destruct (k <? 0)%Z eqn:E; [lia|].
  destruct (lookup_lt_is_Some_2 array (Z.to_nat k)) as [x Hx]; [lia|].
  exists x. by rewrite Hx.
Qed.

Lemma next_target h a this p P count :
  h !! a = Some this → Node.parent this = Some p → h !! p = Some P →
  Node.next h a count
  = Ok (array_get VNode (Node.children P)
          (indexOf (Node.children P) a + default 1%Z count)%Z).
Proof.
  intros Ha Hp HP. unfold Node.next, Node.index.
  get_node Ha. rewrite Hp. by get_node HP.
Qed.

(** C1, as the code has it: on a node that has a parent, [next(count)] and
    [previous(count)] with a target index outside the children of the
    parent return [undefined]; nothing is thrown. *)
Theorem next_previous_outside_are_undefined h a this p P count :
  h !! a = Some this → Node.parent this = Some p → h !! p = Some P →
  let i := indexOf (Node.children P) a in
  let n := Z.of_nat (length (Node.children P)) in
  let c := default 1%Z count in
  ((i + c < 0 ∨ n ≤ i + c)%Z → Node.next h a count = Ok VUndefined) ∧
  ((i - c < 0 ∨ n ≤ i - c)%Z → Node.previous h a count = Ok VUndefined).
Proof.
  intros Ha Hp HP i n c. split; intros Hout.
  - rewrite (next_target h a this p P count Ha Hp HP).
    by rewrite array_get_outside.
  - unfold Node.previous. simpl.
    rewrite (next_target h a this p P _ Ha Hp HP). simpl.
    rewrite array_get_outside; [done|]. fold i n c. lia.
Qed.

Lemma next_previous_outside_are_undefined_witness :
  Node.previous Guide.store 1 None = Ok VUndefined ∧
  Node.next Guide.store 2 (Some 1%Z) = Ok VUndefined.
Proof.
  split.
  - apply (next_previous_outside_are_undefined Guide.store 1
             (Node.Properties (VNum 1) (VStr "one") (Some 0%nat) []) 0
             (Node.Properties (VNum 0) (VStr "zero") None [1; 2]%nat) None);
      [reflexivity | reflexivity | reflexivity | vm_compute; left; reflexivity].
  - apply (next_previous_outside_are_undefined Guide.store 2
             (Node.Properties (VNum 2) (VStr "two") (Some 0%nat) [3; 4]%nat) 0
             (Node.Properties (VNum 0) (VStr "zero") None [1; 2]%nat) (Some 1%Z));
      [reflexivity | reflexivity | reflexivity | vm_compute; right; discriminate].
Defined.

(** The claim C1 fails on the tree of the guide: [nodes[1].previous()],
    with index 0 and target index -1, returns [undefined] and throws
    nothing. *)
Lemma previous_of_first_child_is_not_an_error :
  Node.index Guide.store 1 = Ok (VNum 0) ∧
  ¬ (∃ e, Node.previous Guide.store 1 None = Throw e) ∧
  Node.previous Guide.store 1 None = Ok VUndefined.
Proof.
  split; [reflexivity|]. split; [|reflexivity].
  intros [e He]. vm_compute in He. discriminate.
Qed.

(** ** Removing from an array *)

Lemma remove_from_filter elements n array :
  (n ≤ length array)%nat →
  Node.remove_from n array elements
  = filter (λ x, includes elements x = false) (take n array) ++ drop n array.
Proof.
  revert array. induction n as [|index IH]; intros array Hn; [done|].
  destruct (lookup_lt_is_Some_2 array index) as [element He]; [lia|].
  simpl. rewrite He. rewrite (take_S_r _ _ _ He), filter_app.
  destruct (includes elements element) eqn:E.
  - rewrite IH by (rewrite length_delete by eauto; lia).
    rewrite filter_cons_False by (rewrite E; done).
    rewrite filter_nil, app_nil_r.
    rewrite delete_take_drop at 1 2.
    rewrite take_app_le by (rewrite length_take; lia).
    rewrite take_take, Nat.min_id.
    rewrite drop_app_length' by (rewrite length_take; lia).
    done.
  - rewrite IH by lia.
    rewrite filter_cons_True by done.
    rewrite filter_nil, <- app_assoc. simpl.
    by rewrite <- (drop_S _ _ _ He).
Qed.

Lemma remove_one array x :
  Node.remove array [x] = filter (λ y, y ≠ x) array.
Proof.
  unfold Node.remove. rewrite remove_from_filter by done.
  rewrite firstn_all, drop_all, app_nil_r.
  apply list_filter_iff. intros y. unfold includes. simpl.
  rewrite orb_false_r, Nat.eqb_neq. split; intros H E; by apply H.
Qed.

(** ** Changing the parent *)

Lemma modify_changed a g h :
  is_Some (h !! a) →
  ∃ h', Node.modify a g h = Ok (tt, h') ∧
        changed (λ x m, if decide (x = a) then g m else m) h h'.
Proof.
  intros [n Hn]. exists (<[a := g n]> h). split.
  - unfold Node.modify. by get_node Hn.
  - intros x. rewrite list_lookup_insert.
    destruct (decide (x = a)) as [->|Hx].
    + rewrite decide_True by eauto using lookup_lt_Some. by rewrite Hn.
    + rewrite decide_False by (intros [? ?]; congruence).
      by destruct (h !! x).
Qed.

Lemma update_children_changed a (F : list loc → list loc) h :
  is_Some (h !! a) →
  ∃ h', (P ← Node.read a; Node.set_children a (F (Node.children P))) h = Ok (tt, h') ∧
        changed (λ x m, if decide (x = a)
                        then Node.with_children (F (Node.children m)) m else m) h h'.
Proof.
  intros [n Hn].
  destruct (modify_changed a (λ m, Node.with_children (F (Node.children m)) m) h)
    as (h' & Hrun & Hch); [by eexists|].
  exists h'. split; [|done].
  unfold mbind, Node.M_bind, Node.read, Node.set_children.
  get_node Hn. unfold Node.modify in *. revert Hrun. by get_node Hn.
Qed.

Lemma changed_is_Some f h h' x : changed f h h' → is_Some (h !! x) → is_Some (h' !! x).
Proof. intros Hch [n Hn]. rewrite Hch, Hn. by eexists. Qed.

Lemma changed_length f h h' : changed f h h' → length h' = length h.
Proof.
  intros Hch. apply Nat.le_antisymm.
  - destruct (decide (length h' ≤ length h)%nat) as [|Hn]; [done|].
    destruct (lookup_lt_is_Some_2 h' (length h)) as [n Hn']; [lia|].
    rewrite Hch, lookup_ge_None_2 in Hn' by lia. done.
  - destruct (decide (length h ≤ length h')%nat) as [|Hn]; [done|].
    destruct (lookup_lt_is_Some_2 h (length h')) as [n Hn']; [lia|].
    specialize (Hch (length h')). rewrite Hn', lookup_ge_None_2 in Hch by lia. done.
Qed.

Lemma read_run (h : Node.heap) a this :
  h !! a = Some this → Node.read a h = Ok (this, h).
Proof. intros Ha. unfold Node.read. by get_node Ha. Qed.

(** What [setParent] does to every node of the store. *)
Lemma setParent_changed h a this parentNode :
  h !! a = Some this →
  (∀ p, Node.parent this = Some p → is_Some (h !! p)) →
  (∀ q, parentNode = Some q → is_Some (h !! q)) →
  ∃ h', Node.setParent a parentNode h = Ok (tt, h') ∧
        changed (reparented a (Node.parent this) parentNode) h h'.
Proof.
  intros Ha Hold Hnew. unfold Node.setParent.
  unfold mbind at 1 2 3, Node.M_bind at 1 2 3.
  rewrite (read_run h a this Ha).
  (* leaving the old parent *)
  assert (∃ h1, match Node.parent this with
                | Some p => P ← Node.read p;
                            Node.set_children p (Node.remove (Node.children P) [a])
                | None => mret ()
                end h = Ok (tt, h1) ∧
          changed (λ x m, if decide (Node.parent this = Some x)
                          then Node.with_children (filter (λ y, y ≠ a) (Node.children m)) m
                          else m) h h1) as (h1 & -> & H1).
  { destruct (Node.parent this) as [p|].
    - destruct (update_children_changed p (λ cs, Node.remove cs [a]) h)
        as (h1 & Hrun & Hch); [by apply Hold|].
      exists h1. split; [done|]. intros x. rewrite Hch.
      destruct (h !! x) as [m|]; [simpl|done].
      destruct (decide (x = p)) as [->|].
      + by rewrite decide_True, remove_one.
      + by rewrite decide_False by congruence.
    - exists h. split; [done|]. intros x. by destruct (h !! x). }
  (* joining the new parent *)
  assert (∃ h2, match parentNode with
                | Some q => Q ← Node.read q;
                            Node.set_children q (Node.children Q ++ [a])
                | None => mret ()
                end h1 = Ok (tt, h2) ∧
          changed (λ x m, if decide (parentNode = Some x)
                          then Node.with_children (Node.children m ++ [a]) m
                          else m) h1 h2) as (h2 & -> & H2).
  { destruct parentNode as [q|].
    - destruct (update_children_changed q (λ cs, cs ++ [a]) h1)
        as (h2 & Hrun & Hch); [eapply changed_is_Some; eauto|].
      exists h2. split; [done|]. intros x. rewrite Hch.
      destruct (h1 !! x) as [m|]; [simpl|done].
      destruct (decide (x = q)) as [->|].
      + by rewrite decide_True.
      + by rewrite decide_False by congruence.
    - exists h1. split; [done|]. intros x. by destruct (h1 !! x). }
  (* the parent link *)
  destruct (modify_changed a (Node.with_parent parentNode) h2) as (h3 & Hrun & H3).
  { eapply changed_is_Some; [exact H2|]. eapply changed_is_Some; [exact H1|]. eauto. }
  exists h3. split; [exact Hrun|].
  intros x. rewrite H3, H2, H1. destruct (h !! x) as [m|]; [simpl|done].
  f_equal. unfold reparented.
  repeat case_decide; destruct m; reflexivity.
Qed.

Lemma changed_lookup f (h h' : Node.heap) x n' :
  changed f h h' → h' !! x = Some n' → ∃ n, h !! x = Some n ∧ n' = f x n.
Proof.
  intros Hch Hx. rewrite Hch in Hx. destruct (h !! x) as [n|]; [|done].
  injection Hx as <-. by exists n.
Qed.

Lemma reparented_children a old new x n c :
  c ∈ Node.children (reparented a old new x n) ↔
  (c ∈ Node.children n ∧ (old = Some x → c ≠ a)) ∨ (c = a ∧ new = Some x).
Proof.
  unfold reparented. simpl.
  destruct (decide (old = Some x)) as [Ho|Ho], (decide (new = Some x)) as [Hn|Hn];
    rewrite ?elem_of_app, ?list_elem_of_filter, ?list_elem_of_singleton;
    intuition congruence.
Qed.

Lemma reparented_parent a old new x n :
  Node.parent (reparented a old new x n) = if decide (x = a) then new else Node.parent n.
Proof. done. Qed.

(** [setParent] keeps the links consistent. *)
Lemma setParent_consistent h h' a this parentNode :
  consistent h → h !! a = Some this →
  (∀ q, parentNode = Some q → is_Some (h !! q)) →
  changed (reparented a (Node.parent this) parentNode) h h' →
  consistent h'.
Proof.
  intros [H1 H2 H3] Ha Hnew Hch. split.
  - intros p nP' c Hp Hc.
    destruct (changed_lookup _ _ _ _ _ Hch Hp) as (nP & HnP & ->).
    apply reparented_children in Hc as [[Hc Hold] | [-> Hq]].
    + destruct (H1 p nP c HnP Hc) as (nc & Hnc & Hpar).
      exists (reparented a (Node.parent this) parentNode c nc).
      split; [by rewrite Hch, Hnc|].
      rewrite reparented_parent. case_decide as Hca; [|done]. subst c.
      exfalso. apply Hold; [|done]. congruence.
    + exists (reparented a (Node.parent this) parentNode a this).
      split; [by rewrite Hch, Ha|].
      rewrite reparented_parent. by rewrite decide_True.
  - intros c nc' p Hc Hpar.
    destruct (changed_lookup _ _ _ _ _ Hch Hc) as (nc & Hnc & ->).
    rewrite reparented_parent in Hpar. case_decide as Hca.
    + subst c parentNode. destruct (Hnew p eq_refl) as [nP HnP].
      exists (reparented a (Node.parent this) (Some p) p nP).
      split; [by rewrite Hch, HnP|]. apply reparented_children. by right.
    + destruct (H2 c nc p Hnc Hpar) as (nP & HnP & Hin).
      exists (reparented a (Node.parent this) parentNode p nP).
      split; [by rewrite Hch, HnP|]. apply reparented_children. left. done.
  - intros p nP' Hp.
    destruct (changed_lookup _ _ _ _ _ Hch Hp) as (nP & HnP & ->).
    pose proof (H3 p nP HnP) as Hnd.
    assert (Node.parent this ≠ Some p → a ∉ Node.children nP) as Hout.
    { intros Hne Hin. destruct (H1 p nP a HnP Hin) as (n & Hn & Hpar). congruence. }
    unfold reparented; simpl.
    destruct (decide (Node.parent this = Some p)) as [Ho|Ho],
      (decide (parentNode = Some p)) as [Hn|Hn];
      try (apply NoDup_app; split; [|split; [|apply NoDup_singleton]]);
      try (by apply NoDup_filter); try done.
    + intros x [Hx _]%list_elem_of_filter ->%list_elem_of_singleton. done.
    + intros x Hx ->%list_elem_of_singleton. by apply Hout.
Qed.

(** A new node keeps the links consistent. *)
Lemma new_consistent h i c :
  consistent h →
  ∃ h', Node.new i c h = Ok (length h, h') ∧ consistent h'.
Proof.
  intros [H1 H2 H3]. eexists. split; [reflexivity|].
  set (cell := Node.Properties i (or_default VNull c) None []).
  assert (∀ x n, (h ++ [cell]) !! x = Some n →
                 h !! x = Some n ∨ (x = length h ∧ n = cell)) as Hcases.
  { intros x n Hx. apply lookup_app_Some in Hx as [Hx | [Hlen Hx]]; [by left|].
    right. apply list_lookup_singleton_Some in Hx as [Hx <-]. split; [lia|done]. }
  split.
  - intros p nP x Hp Hx. apply Hcases in Hp as [Hp | [_ ->]].
    + destruct (H1 p nP x Hp Hx) as (nc & Hnc & Hpar).
      exists nc. split; [|done]. by apply lookup_app_l_Some.
    + by apply elem_of_nil in Hx.
  - intros x nc p Hx Hpar. apply Hcases in Hx as [Hx | [_ ->]]; [|done].
    destruct (H2 x nc p Hx Hpar) as (nP & HnP & Hin).
    exists nP. split; [|done]. by apply lookup_app_l_Some.
  - intros p nP Hp. apply Hcases in Hp as [Hp | [_ ->]]; [by eapply H3|].
    apply NoDup_nil_2.
Qed.

Lemma add_run h a node h' :
  Node.setParent node (Some a) h = Ok (tt, h') → Node.add a node h = Ok (node, h').
Proof. intros H. unfold Node.add, mbind, Node.M_bind. by rewrite H. Qed.

Lemma push_one_run h a node h' :
  Node.setParent node (Some a) h = Ok (tt, h') → Node.push a [node] h = Ok (a, h').
Proof.
  intros H. unfold Node.push. simpl. unfold mbind, Node.M_bind.
  by rewrite (add_run _ _ _ _ H).
Qed.

Lemma once_in_NoDup (c : loc) l :
  NoDup l → c ∈ l → filter (λ y, y = c) l = [c].
Proof.
  induction 1 as [|y l Hy _ IH]; intros Hc; [by apply elem_of_nil in Hc|].
  apply elem_of_cons in Hc as [->|Hc].
  - rewrite filter_cons_True by done. f_equal.
    clear IH. induction l as [|z l IHl]; [done|].
    apply not_elem_of_cons in Hy as [Hz Hl].
    rewrite filter_cons_False by congruence. by apply IHl.
  - rewrite filter_cons_False by (intros ->; done). by apply IH.
Qed.

(** C4: after [P.add(c)] the parent of [c] is [P], [c] is once among the
    children of [P] and no longer among the children of the parent it had,
    and the call returns [c]; the links stay consistent. *)
Theorem add_links_child_to_parent h P c nP nc :
  consistent h → h !! P = Some nP → h !! c = Some nc →
  ∃ h' nP' nc',
    Node.add P c h = Ok (c, h') ∧
    h' !! c = Some nc' ∧ Node.parent nc' = Some P ∧
    h' !! P = Some nP' ∧ filter (λ y, y = c) (Node.children nP') = [c] ∧
    (∀ Q, Node.parent nc = Some Q → Q ≠ P →
       ∃ nQ', h' !! Q = Some nQ' ∧ c ∉ Node.children nQ') ∧
    consistent h'.
Proof.
  intros Hcons HP Hc.
  assert (∀ Q, Node.parent nc = Some Q → is_Some (h !! Q)) as Hclosed.
  { intros Q HQ. destruct (parent_has_child h Hcons c nc Q Hc HQ) as (nQ & HnQ & _).
    by eexists. }
  assert (∀ q, Some P = Some q → is_Some (h !! q)) as Hnew.
  { intros q [= <-]. by eexists. }
  destruct (setParent_changed h c nc (Some P) Hc Hclosed Hnew) as (h' & Hrun & Hch).
  pose proof (setParent_consistent h h' c nc (Some P) Hcons Hc Hnew Hch) as Hcons'.
  exists h', (reparented c (Node.parent nc) (Some P) P nP),
    (reparented c (Node.parent nc) (Some P) c nc).
  split; [by apply add_run|].
  split; [by rewrite Hch, Hc|].
  split; [rewrite reparented_parent; by rewrite decide_True|].
  assert (h' !! P = Some (reparented c (Node.parent nc) (Some P) P nP)) as HP'
    by (by rewrite Hch, HP).
  split; [done|].
  split; [|split; [|done]].
  - apply once_in_NoDup; [by eapply (children_once h' Hcons')|].
    apply reparented_children. by right.
  - intros Q HQ HQP. destruct (Hclosed Q HQ) as [nQ HnQ].
    exists (reparented c (Node.parent nc) (Some P) Q nQ).
    split; [by rewrite Hch, HnQ|].
    intros [[_ Hne] | [_ Heq]]%reparented_children; [by apply Hne | congruence].
Qed.

(** C9: when [c] already has [P] as its parent, [c.setParent(P)], and so
    [P.add(c)] and [P.push(c)], takes [c] out of the children of [P] and
    puts it back at the end: [c] becomes the last child. *)
Theorem setParent_to_same_parent_moves_last h P c nP nc :
  h !! P = Some nP → h !! c = Some nc →
  Node.parent nc = Some P → c ∈ Node.children nP →
  ∃ h' nP' nc',
    Node.setParent c (Some P) h = Ok (tt, h') ∧
    Node.add P c h = Ok (c, h') ∧
    Node.push P [c] h = Ok (P, h') ∧
    h' !! P = Some nP' ∧
    Node.children nP' = filter (λ y, y ≠ c) (Node.children nP) ++ [c] ∧
    last (Node.children nP') = Some c ∧
    h' !! c = Some nc' ∧ Node.parent nc' = Some P.
Proof.
  intros HP Hc Hpar Hin.
  destruct (setParent_changed h c nc (Some P) Hc) as (h' & Hrun & Hch).
  { intros p Hp. rewrite Hpar in Hp. injection Hp as <-. by eexists. }
  { intros q [= <-]. by eexists. }
  exists h', (reparented c (Node.parent nc) (Some P) P nP),
    (reparented c (Node.parent nc) (Some P) c nc).
  split; [done|]. split; [by apply add_run|]. split; [by apply push_one_run|].
  split; [by rewrite Hch, HP|].
  assert (Node.children (reparented c (Node.parent nc) (Some P) P nP)
          = filter (λ y, y ≠ c) (Node.children nP) ++ [c]) as Hcs.
  { unfold reparented; simpl. rewrite Hpar. by rewrite !decide_True. }
  split; [done|]. split; [by rewrite Hcs, last_snoc|].
  split; [by rewrite Hch, Hc|].
  unfold reparented; simpl. by rewrite decide_True.
Qed.

Lemma setParent_to_same_parent_moves_last_witness :
  ∃ h' nP' nc',
    Node.setParent 1 (Some 0%nat) Guide.store = Ok (tt, h') ∧
    Node.add 0 1 Guide.store = Ok (1%nat, h') ∧
    Node.push 0 [1%nat] Guide.store = Ok (0%nat, h') ∧
    h' !! 0%nat = Some nP' ∧
    Node.children nP' = filter (λ y, y ≠ 1%nat) [1; 2]%nat ++ [1%nat] ∧
    last (Node.children nP') = Some 1%nat ∧
    h' !! 1%nat = Some nc' ∧ Node.parent nc' = Some 0%nat.
Proof.
  apply (setParent_to_same_parent_moves_last Guide.store 0 1
           (Node.Properties (VNum 0) (VStr "zero") None [1; 2]%nat)
           (Node.Properties (VNum 1) (VStr "one") (Some 0%nat) [])).
  - reflexivity.
  - reflexivity.
  - reflexivity.
  - simpl. apply list_elem_of_here.
Defined.

Lemma guide_consistent : consistent Guide.store.
Proof.
  split.
  - intros p nP c Hp Hc.
    do 5 (destruct p as [|p]; [injection Hp as <-; simpl in Hc;
      repeat (apply elem_of_cons in Hc as [->|Hc]; [eexists; split; reflexivity|]);
      by apply elem_of_nil in Hc|]).
    done.
  - intros c nc p Hc Hpar.
    do 5 (destruct c as [|c]; [injection Hc as <-; simpl in Hpar;
      first [discriminate | injection Hpar as <-; eexists; split;
                            [reflexivity | simpl; repeat constructor]]|]).
    done.
  - intros p nP Hp.
    do 5 (destruct p as [|p]; [injection Hp as <-; simpl; compute_done|]).
    done.
Qed.

Lemma add_links_child_to_parent_witness :
  ∃ h' nP' nc',
    Node.add 1 3 Guide.store = Ok (3%nat, h') ∧
    h' !! 3%nat = Some nc' ∧ Node.parent nc' = Some 1%nat ∧
    h' !! 1%nat = Some nP' ∧ filter (λ y, y = 3%nat) (Node.children nP') = [3%nat] ∧
    (∀ Q, Some 2%nat = Some Q → Q ≠ 1%nat →
       ∃ nQ', h' !! Q = Some nQ' ∧ 3%nat ∉ Node.children nQ') ∧
    consistent h'.
Proof.
  apply (add_links_child_to_parent Guide.store 1 3
           (Node.Properties (VNum 1) (VStr "one") (Some 0%nat) [])
           (Node.Properties (VNum 3) (VStr "three") (Some 2%nat) [])).
  - exact guide_consistent.
  - reflexivity.
  - reflexivity.
Defined.

(** ** Trees *)

Lemma tree_ind' (P : tree → Prop) :
  (∀ i c kids, Forall P kids → P (Tree i c kids)) → ∀ t, P t.
Proof.
  intros H. fix IH 1. intros [i c kids]. apply H.
  induction kids as [|k kids IHkids]; constructor; [apply IH | exact IHkids].
Qed.

Lemma height_kid i c kids k :
  k ∈ kids → (height k < height (Tree i c kids))%nat.
Proof.
  simpl. induction 1 as [k kids | k k' kids _ IH]; simpl; lia.
Qed.

Lemma map_result_Forall2 {A B} (f : A → result B) l l' :
  Forall2 (λ x y, f x = Ok y) l l' → map_result f l = Ok l'.
Proof.
  induction 1 as [|x y l l' Hx _ IH]; [done|]. simpl. by rewrite Hx, IH.
Qed.

(** From a property [P] of every subtree of the children, a relation [R]
    between the children and these subtrees and a way to combine the
    two, a relation between the children and what is built from them. *)
Lemma Forall2_kids {B} (P : tree → Prop) (R : loc → tree → Prop)
    (Q : loc → B → Prop) (g : tree → B) kids cs :
  Forall P kids → Forall2 R cs kids →
  (∀ c k, k ∈ kids → P k → R c k → Q c (g k)) →
  Forall2 Q cs (map g kids).
Proof.
  intros HP HR. revert HP.
  induction HR as [|c k cs kids Hck _ IH]; intros HP Hstep; [constructor|].
  inversion HP as [|? ? Hk Hkids]; subst. simpl. constructor.
  - apply Hstep; [apply list_elem_of_here|done|done].
  - apply IH; [done|]. intros c' k' Hin. apply Hstep. by apply list_elem_of_further.
Qed.

Lemma Forall2_kids_exists (P : tree → Prop) (R : loc → tree → Prop)
    {B} (Q : loc → B → Prop) kids cs :
  Forall P kids → Forall2 R cs kids →
  (∀ c k, k ∈ kids → P k → R c k → ∃ y, Q c y) →
  ∃ ys, Forall2 Q cs ys.
Proof.
  intros HP HR. revert HP.
  induction HR as [|c k cs kids Hck _ IH]; intros HP Hstep; [by exists []|].
  inversion HP as [|? ? Hk Hkids]; subst.
  destruct (Hstep c k) as [y Hy]; [apply list_elem_of_here|done|done|].
  destruct IH as [ys Hys]; [done| |].
  - intros c' k' Hin. apply Hstep. by apply list_elem_of_further.
  - exists (y :: ys). by constructor.
Qed.

(** ** Encoding *)

Lemma encode_record h t :
  ∀ a fuel, subtree h a t → (height t < fuel)%nat →
  Node.encode fuel h a None = Ok (record t).
Proof.
  induction t as [i c kids IH] using tree_ind'. intros a fuel Hsub Hfuel.
  inversion Hsub as [a' this kids' Ha Hkids]; subst.
  destruct fuel as [|fuel]; [lia|].
  simpl. unfold Node.default_builder. get_node Ha.
  rewrite (map_result_Forall2 _ _ (map record kids)); [done|].
  eapply (Forall2_kids _ _ _ record); [exact IH | exact Hkids |].
  intros c k Hin HP Hck. apply HP; [done|].
  pose proof (height_kid (Node.id this) (Node.content this) kids k Hin). lia.
Qed.

(** C2, as the code has it: [encode()] with the default constructor gives,
    for each node, an object with the properties id, content and nodes, in
    this order: the id and the content of the node and the array of the
    records of its children, in order, empty on a leaf. *)
Theorem encode_default_shape h a this kids fuel :
  h !! a = Some this →
  Forall2 (subtree h) (Node.children this) kids →
  (height (Tree (Node.id this) (Node.content this) kids) < fuel)%nat →
  ∃ records,
    Forall2 (λ c r, Node.encode fuel h c None = Ok r) (Node.children this) records ∧
    records = map record kids ∧
    (Node.children this = [] → records = []) ∧
    Node.encode fuel h a None
    = Ok (VObj [("id", Node.id this); ("content", Node.content this);
                ("nodes", VArr records)]).
Proof.
  intros Ha Hkids Hfuel. exists (map record kids).
  split; [|split; [done|split]].
  - eapply (Forall2_kids (λ _, True) _ _ record);
      [by apply Forall_true | exact Hkids |].
    intros c k Hin _ Hck. apply encode_record; [done|].
    pose proof (height_kid (Node.id this) (Node.content this) kids k Hin). lia.
  - intros Hleaf. rewrite Hleaf in Hkids. by inversion Hkids.
  - apply (encode_record h (Tree (Node.id this) (Node.content this) kids));
      [by constructor | done].
Qed.

Lemma guide_leaf a i c p :
  Guide.store !! a = Some (Node.Properties i c p []) →
  subtree Guide.store a (Tree i c []).
Proof.
  intros Ha. apply (subtree_node Guide.store a (Node.Properties i c p []) []);
    [exact Ha | constructor].
Qed.

Lemma guide_subtree_2 :
  Forall2 (subtree Guide.store) [3; 4]%nat
    [Tree (VNum 3) (VStr "three") []; Tree (VNum 4) (VStr "four") []].
Proof.
  repeat constructor; eapply guide_leaf; reflexivity.
Qed.

Lemma encode_default_shape_witness :
  ∃ records,
    Forall2 (λ c r, Node.encode 3 Guide.store c None = Ok r) [3; 4]%nat records ∧
    records = map record [Tree (VNum 3) (VStr "three") []; Tree (VNum 4) (VStr "four") []] ∧
    ([3; 4]%nat = [] → records = []) ∧
    Node.encode 3 Guide.store 2 None
    = Ok (VObj [("id", VNum 2); ("content", VStr "two"); ("nodes", VArr records)]).
Proof.
  apply (encode_default_shape Guide.store 2
           (Node.Properties (VNum 2) (VStr "two") (Some 0%nat) [3; 4]%nat)
           [Tree (VNum 3) (VStr "three") []; Tree (VNum 4) (VStr "four") []] 3).
  - reflexivity.
  - exact guide_subtree_2.
  - simpl. lia.
Defined.

(** The claim C2 fails on a leaf of the guide: the record of [nodes[1]]
    is not the record with the field names of the specification; it has a
    property nodes and no property children. *)
Lemma encode_has_no_children_property :
  subtree Guide.store 1 (Tree (VNum 1) (VStr "one") []) ∧
  Node.encode 1 Guide.store 1 None
    ≠ Ok (record_of_the_spec (Tree (VNum 1) (VStr "one") [])) ∧
  ∃ fields,
    Node.encode 1 Guide.store 1 None = Ok (VObj fields) ∧
    map fst fields = ["id"; "content"; "nodes"] ∧
    field fields "children" = VUndefined.
Proof.
  split; [eapply guide_leaf; reflexivity|]. split; [discriminate|].
  eexists. split; [reflexivity|]. split; reflexivity.
Qed.

(** ** Iterating *)

Lemma iterator_preorder h t :
  ∀ a fuel, subtree h a t → (height t < fuel)%nat →
  ∃ l, Node.iterator fuel h a = Ok l ∧ preorder h a l.
Proof.
  induction t as [i c kids IH] using tree_ind'. intros a fuel Hsub Hfuel.
  inversion Hsub as [a' this kids' Ha Hkids]; subst.
  destruct fuel as [|fuel]; [lia|].
  destruct (Forall2_kids_exists _ _
              (λ c l, Node.iterator fuel h c = Ok l ∧ preorder h c l)
              kids (Node.children this) IH Hkids) as [rest Hrest].
  { intros c k Hin HP Hck. apply HP; [done|].
    pose proof (height_kid (Node.id this) (Node.content this) kids k Hin). lia. }
  exists (a :: concat rest). split.
  - simpl. get_node Ha.
    rewrite (map_result_Forall2 _ _ rest); [done|].
    eapply Forall2_impl; [exact Hrest|]. by intros c l [Hl _].
  - apply (preorder_node h a this rest Ha).
    eapply Forall2_impl; [exact Hrest|]. by intros c l [_ Hl].
Qed.

(** C5: iterating a node of a finite tree yields the node, then the
    sequence of each child in the order of the children; on the tree of
    the guide, [nodes[0]] yields the five nodes in the order of their
    numbers. *)
Theorem iterator_is_preorder h a t fuel :
  subtree h a t → (height t < fuel)%nat →
  (∃ l, Node.iterator fuel h a = Ok l ∧ preorder h a l) ∧
  Node.iterator 3 Guide.store 0 = Ok [0; 1; 2; 3; 4]%nat.
Proof.
  intros Hsub Hfuel. split; [by eapply iterator_preorder|reflexivity].
Qed.

Lemma guide_subtree_0 :
  subtree Guide.store 0
    (Tree (VNum 0) (VStr "zero")
       [Tree (VNum 1) (VStr "one") [];
        Tree (VNum 2) (VStr "two")
          [Tree (VNum 3) (VStr "three") []; Tree (VNum 4) (VStr "four") []]]).
Proof.
  apply (subtree_node Guide.store 0
           (Node.Properties (VNum 0) (VStr "zero") None [1; 2]%nat)); [reflexivity|].
  constructor; [eapply guide_leaf; reflexivity|].
  constructor; [|constructor].
  apply (subtree_node Guide.store 2
           (Node.Properties (VNum 2) (VStr "two") (Some 0%nat) [3; 4]%nat));
    [reflexivity | exact guide_subtree_2].
Qed.

Lemma iterator_is_preorder_witness :
  (∃ l, Node.iterator 4 Guide.store 0 = Ok l ∧ preorder Guide.store 0 l) ∧
  Node.iterator 3 Guide.store 0 = Ok [0; 1; 2; 3; 4]%nat.
Proof.
  apply (iterator_is_preorder Guide.store 0 _ 4 guide_subtree_0).
  simpl. lia.
Defined.

(** ** Parsing *)

Lemma Forall2_kids_impl (P : tree → Prop) (R R' : loc → tree → Prop) kids cs :
  Forall P kids → Forall2 R cs kids →
  (∀ c k, P k → R c k → R' c k) →
  Forall2 R' cs kids.
Proof.
  intros HP HR Hstep. revert HP.
  induction HR as [|c k cs kids Hck _ IH]; intros HP; [constructor|].
  inversion HP; subst. constructor; auto.
Qed.

Lemma tree_in_intro h lo hi par a this i c kids :
  (lo ≤ a < hi)%nat → h !! a = Some this → Node.parent this = par →
  Node.id this = i → Node.content this = c →
  Forall2 (tree_in h (S a) hi (Some a)) (Node.children this) kids →
  tree_in h lo hi par a (Tree i c kids).
Proof. intros ? ? ? <- <- ?. by constructor. Qed.

(** A tree stays where it is when the store changes outside its
    addresses. *)
Lemma tree_in_frame t :
  ∀ (h h2 : Node.heap) lo hi lo' hi' par a,
    tree_in h lo hi par a t →
    (lo' ≤ lo)%nat → (hi ≤ hi')%nat →
    (∀ x, (lo ≤ x < hi)%nat → h2 !! x = h !! x) →
    tree_in h2 lo' hi' par a t.
Proof.
  induction t as [i c kids IH] using tree_ind'.
  intros h h2 lo hi lo' hi' par a Hin Hlo Hhi Hsame.
  inversion Hin as [? ? ? ? this ? Ha Hthis Hpar Hkids]; subst.
  apply tree_in_node; [lia | by rewrite Hsame | done |].
  eapply Forall2_kids_impl; [exact IH | exact Hkids |].
  intros c k HP Hck. eapply HP; [exact Hck | lia | lia |].
  intros x Hx. apply Hsame. lia.
Qed.

Lemma tree_in_subtree t :
  ∀ (h : Node.heap) lo hi par a, tree_in h lo hi par a t → subtree h a t.
Proof.
  induction t as [i c kids IH] using tree_ind'. intros h lo hi par a Hin.
  inversion Hin as [? ? ? ? this ? Ha Hthis Hpar Hkids]; subst.
  constructor; [done|].
  eapply Forall2_kids_impl; [exact IH | exact Hkids |].
  intros c k HP Hck. eapply HP, Hck.
Qed.

Lemma parsed_no_undefined t : no_undefined t = true → parsed t = t.
Proof.
  induction t as [i c kids IH] using tree_ind'. simpl.
  intros [Hc Hkids]%andb_prop. f_equal.
  - by destruct c.
  - induction IH as [|k kids Hk _ IHkids]; [done|].
    simpl in Hkids. apply andb_prop in Hkids as [H1 H2].
    simpl. by rewrite Hk, IHkids.
Qed.

Lemma parse_record_unfold fuel i c kids (h : Node.heap) :
  Node.parse (S fuel) (record (Tree i c kids)) None h
  = (Node.for_each (map record kids) (parse_child fuel (length h));;
     mret (length h))
      (h ++ [Node.Properties i (or_default VNull c) None []]).
Proof. reflexivity. Qed.


Lemma reparented_elsewhere a new x n :
  x ≠ a → new ≠ Some x → reparented a None new x n = n.
Proof.
  intros Hx Hnew. unfold reparented.
  rewrite (decide_False (P := None = Some x)) by done.
  rewrite decide_False by done. rewrite decide_False by done. by destruct n.
Qed.

Lemma parse_kids fuel a' kids :
  Forall (parses fuel) kids →
  ∀ (h : Node.heap) this done,
    h !! a' = Some this →
    Forall2 (tree_in h (S a') (length h) (Some a')) (Node.children this) done →
    ∃ h' cs,
      Node.for_each (map record kids) (parse_child fuel a') h = Ok (tt, h') ∧
      h' !! a' = Some (Node.with_children (Node.children this ++ cs) this) ∧
      Forall2 (tree_in h' (S a') (length h') (Some a'))
        (Node.children this ++ cs) (done ++ map parsed kids) ∧
      (length h ≤ length h')%nat ∧
      ∀ x, (x < a')%nat → h' !! x = h !! x.
Proof.
  induction 1 as [|k kids Hk _ IH]; intros h this done Ha Hdone.
  { exists h, []. simpl. rewrite !app_nil_r. repeat split; auto.
    rewrite Ha. by destruct this. }
  pose proof (lookup_lt_Some _ _ _ Ha) as Hlt.
  (* the child is parsed *)
  destruct (Hk h) as (h1 & Hparse & Htree & Hold).
  remember (parsed k) as pk eqn:Hpk.
  inversion Htree as [? ? ? ? child kids' Hrange Hc Hpar Hkids]; subst.
  match goal with H : Tree _ _ _ = parsed k |- _ => rename H into Hk' end.
  assert (h1 !! a' = Some this) as Ha1 by (by rewrite Hold).
  (* the child is added *)
  destruct (setParent_changed h1 (length h) child (Some a') Hc)
    as (h2 & Hset & Hch).
  { intros p Hp. by rewrite Hpar in Hp. }
  { intros q [= <-]. by eexists. }
  rewrite Hpar in Hch.
  pose proof (changed_length _ _ _ Hch) as Hlen.
  assert (h2 !! a' = Some (Node.with_children (Node.children this ++ [length h]) this))
    as Ha2.
  { rewrite Hch, Ha1. simpl. f_equal. unfold reparented, Node.with_children.
    rewrite (decide_False (P := None = Some a')) by done.
    rewrite (decide_True (P := Some a' = Some a')) by done.
    rewrite decide_False by lia. done. }
  assert (∀ x, x ≠ a' → x ≠ length h → h2 !! x = h1 !! x) as Hsame.
  { intros x Hx1 Hx2. rewrite Hch. destruct (h1 !! x) as [n|]; [simpl|done].
    rewrite reparented_elsewhere; [done|done|congruence]. }
  (* the rest of the loop *)
  destruct (IH h2 (Node.with_children (Node.children this ++ [length h]) this)
              (done ++ [parsed k]) Ha2) as (h' & cs & Hloop & Ha' & Htrees & Hle & Hold').
  { simpl. apply Forall2_app.
    - eapply Forall2_impl; [exact Hdone|]. intros c t Hct.
      eapply tree_in_frame; [exact Hct | lia | lia |].
      intros x Hx. rewrite Hsame by lia. apply Hold. lia.
    - constructor; [|constructor]. rewrite <- Hk'.
      eapply tree_in_intro with (this := reparented (length h) None (Some a') (length h) child).
      + lia.
      + by rewrite Hch, Hc.
      + unfold reparented. simpl. by rewrite decide_True.
      + done.
      + done.
      + simpl. rewrite decide_False by (intros [= ?]; lia).
        eapply Forall2_impl; [exact Hkids|]. intros c t Hct.
        eapply tree_in_frame; [exact Hct | lia | lia |].
        intros x Hx. apply Hsame; lia. }
  exists h', (length h :: cs). split; [|split; [|split; [|split]]].
  - simpl. unfold mbind at 1, Node.M_bind at 1.
    unfold parse_child at 1. unfold mbind at 1 2, Node.M_bind at 1 2.
    rewrite Hparse. unfold Node.add. unfold mbind at 1, Node.M_bind at 1.
    rewrite Hset. exact Hloop.
  - rewrite Ha'. simpl. unfold Node.with_children. simpl.
    by rewrite <- app_assoc.
  - simpl in Htrees. rewrite <- !app_assoc in Htrees. exact Htrees.
  - lia.
  - intros x Hx. rewrite Hold' by done. rewrite Hsame by lia. apply Hold. lia.
Qed.

Lemma parse_parsed t : ∀ fuel, (height t < fuel)%nat → parses fuel t.
Proof.
  induction t as [i c kids IH] using tree_ind'. intros [|fuel] Hfuel h; [lia|].
  set (cell := Node.Properties i (or_default VNull c) None []).
  assert (Forall (parses fuel) kids) as Hkids.
  { apply Forall_forall. intros k Hin.
    pose proof (proj1 (Forall_forall _ _) IH k Hin) as Hk. apply Hk.
    pose proof (height_kid i c kids k Hin). lia. }
  destruct (parse_kids fuel (length h) kids Hkids (h ++ [cell]) cell [])
    as (h' & cs & Hloop & Ha' & Htrees & Hle & Hold).
  { by rewrite list_lookup_middle. }
  { constructor. }
  rewrite length_app in Hle. simpl in Hle.
  exists h'. split; [|split].
  - rewrite parse_record_unfold. fold cell.
    unfold mbind, Node.M_bind. by rewrite Hloop.
  - simpl in Htrees. simpl.
    eapply tree_in_intro; [lia | exact Ha' | done | done | done | exact Htrees].
  - intros x Hx. rewrite Hold by done. by rewrite lookup_app_l.
Qed.

(** C3, as the code has it: on a finite tree, [parse(n.encode())] builds,
    out of new nodes only, a tree with the same ids, the same shape and the
    same order of children, and the same contents except that a content
    which is [undefined] comes back as [null]; the nodes that existed are
    left as they were. *)
Theorem parse_encode_round_trip h a t fuel :
  subtree h a t → (height t < fuel)%nat →
  ∃ r h',
    Node.encode fuel h a None = Ok r ∧
    Node.parse fuel r None h = Ok (length h, h') ∧
    tree_in h' (length h) (length h') None (length h) (parsed t) ∧
    subtree h' (length h) (parsed t) ∧
    (∀ x, (x < length h)%nat → h' !! x = h !! x) ∧
    (no_undefined t = true → parsed t = t).
Proof.
  intros Hsub Hfuel.
  destruct (parse_parsed t fuel Hfuel h) as (h' & Hparse & Htree & Hold).
  exists (record t), h'.
  split; [by apply encode_record|]. split; [done|]. split; [done|].
  split; [by eapply tree_in_subtree|]. split; [done|].
  apply parsed_no_undefined.
Qed.

Lemma parse_encode_round_trip_witness :
  ∃ r h',
    Node.encode 4 Guide.store 0 None = Ok r ∧
    Node.parse 4 r None Guide.store = Ok (5%nat, h') ∧
    tree_in h' 5 (length h') None 5
      (Tree (VNum 0) (VStr "zero")
         [Tree (VNum 1) (VStr "one") [];
          Tree (VNum 2) (VStr "two")
            [Tree (VNum 3) (VStr "three") []; Tree (VNum 4) (VStr "four") []]]) ∧
    subtree h' 5
      (Tree (VNum 0) (VStr "zero")
         [Tree (VNum 1) (VStr "one") [];
          Tree (VNum 2) (VStr "two")
            [Tree (VNum 3) (VStr "three") []; Tree (VNum 4) (VStr "four") []]]) ∧
    (∀ x, (x < 5)%nat → h' !! x = Guide.store !! x) ∧
    (true = true →
     Tree (VNum 0) (VStr "zero")
       [Tree (VNum 1) (VStr "one") [];
        Tree (VNum 2) (VStr "two")
          [Tree (VNum 3) (VStr "three") []; Tree (VNum 4) (VStr "four") []]]
     = Tree (VNum 0) (VStr "zero")
       [Tree (VNum 1) (VStr "one") [];
        Tree (VNum 2) (VStr "two")
          [Tree (VNum 3) (VStr "three") []; Tree (VNum 4) (VStr "four") []]]).
Proof.
  apply (parse_encode_round_trip Guide.store 0 _ 4 guide_subtree_0).
  simpl. lia.
Defined.

(** The claim C3 fails on a node whose content was set to [undefined]: the
    node that [parse] builds from its record has the content [null]. *)
Lemma round_trip_turns_undefined_into_null :
  subtree Blank.store 0 (Tree (VNum 0) VUndefined []) ∧
  ∃ r h' copy,
    Node.encode 2 Blank.store 0 None = Ok r ∧
    Node.parse 2 r None Blank.store = Ok (1%nat, h') ∧
    h' !! 1%nat = Some copy ∧
    Node.content copy = VNull ∧
    strict_eq (Node.content copy) VUndefined = false ∧
    ¬ subtree h' 1 (Tree (VNum 0) VUndefined []).
Proof.
  split.
  - apply (subtree_node Blank.store 0 (Node.Properties (VNum 0) VUndefined None []));
      [reflexivity | constructor].
  - exists (VObj [("id", VNum 0); ("content", VUndefined); ("nodes", VArr [])]),
      [Node.Properties (VNum 0) VUndefined None [];
       Node.Properties (VNum 0) VNull None []],
      (Node.Properties (VNum 0) VNull None []).
    split; [reflexivity|]. split; [reflexivity|].
    split; [reflexivity|]. split; [reflexivity|]. split; [reflexivity|].
    intros Hsub. inversion Hsub as [? this ? Ha Hkids].
    apply (f_equal (fmap Node.content)) in Ha. simpl in Ha. congruence.
Qed.

(** * Properties of the other methods *)

(** ** Walking up *)

(** X1: [getParent(count)] returns the node itself when [count] is less
    than 1, the ancestor [count] links up when there is one, and [null]
    when the walk passes the root; it throws nothing. *)
Theorem getParent_walks_the_chain h a l :
  chain h a l → ∀ fuel count, (Z.to_nat count < fuel)%nat →
  Node.getParent fuel h a (Some count)
  = Ok (if (count <? 1)%Z then VNode a
        else from_option VNode VNull (l !! (Z.to_nat count - 1)%nat)).
Proof.
  induction 1 as [a this Ha Hp | a this p l Ha Hp _ IH]; intros [|fuel] count Hf;
    try lia; simpl; destruct (count <? 1)%Z eqn:E; try done;
    get_node Ha; rewrite Hp; [done|].
  apply Z.ltb_ge in E. rewrite IH by lia.
  destruct (count - 1 <? 1)%Z eqn:E'.
  - apply Z.ltb_lt in E'. by replace (Z.to_nat count - 1)%nat with 0%nat by lia.
  - apply Z.ltb_ge in E'.
    by replace (Z.to_nat count - 1)%nat with (S (Z.to_nat (count - 1) - 1)) by lia.
Qed.

Lemma getParent_walks_the_chain_witness :
  Node.getParent 4 Guide.store 4 (Some 3%Z)
  = Ok (if (3 <? 1)%Z then VNode 4
        else from_option VNode VNull ([2; 0]%nat !! (Z.to_nat 3 - 1)%nat)).
Proof.
  apply (getParent_walks_the_chain Guide.store 4 [2; 0]%nat guide_chain_4 4 3%Z).
  simpl. lia.
Defined.

(** X2: in a tree without cycles, [root()] returns the last node of the
    lineage; this node is a root and is its own [root()]. *)
Theorem root_ends_the_lineage h a l :
  chain h a l → ∀ fuel, (length l < fuel)%nat →
  ∃ r, Node.root fuel h a = Ok r ∧ last (a :: l) = Some r ∧
       Node.isRoot h r = Ok true ∧ Node.root fuel h r = Ok r.
Proof.
  induction 1 as [a this Ha Hp | a this p l Ha Hp _ IH]; intros [|fuel] Hf;
    simpl in Hf; try lia.
  - exists a. simpl. unfold Node.isRoot. get_node Ha. by rewrite Hp.
  - destruct (IH fuel) as (r & Hr & Hlast & Hroot & Hrr); [lia|].
    exists r. split; [simpl; get_node Ha; by rewrite Hp|].
    split; [by rewrite last_cons, Hlast|]. split; [done|].
    revert Hroot. unfold Node.isRoot. simpl.
    destruct (Node.get h r) as [nr|] eqn:Er; simpl; [|done].
    by destruct (Node.parent nr).
Qed.

Lemma root_ends_the_lineage_witness :
  ∃ r, Node.root 3 Guide.store 4 = Ok r ∧ last [4; 2; 0]%nat = Some r ∧
       Node.isRoot Guide.store r = Ok true ∧ Node.root 3 Guide.store r = Ok r.
Proof.
  apply (root_ends_the_lineage Guide.store 4 [2; 0]%nat guide_chain_4 3).
  simpl. lia.
Defined.

(** ** Cycles *)

Lemma looping_exhausts h nodes :
  looping h nodes → ∀ fuel a acc, a ∈ nodes →
  Node.depth fuel h a = Throw Exhausted ∧
  Node.ancestors fuel h a acc = Throw Exhausted ∧
  Node.root fuel h a = Throw Exhausted.
Proof.
  intros Hloop. induction fuel as [|fuel IH]; intros a acc Ha; [done|].
  destruct (Hloop a Ha) as (this & p & Hthis & Hp & Hin).
  simpl. get_node Hthis. rewrite Hp.
  destruct (IH p (Some (default [] acc ++ [p])) Hin) as (-> & -> & ->). done.
Qed.

Lemma chain_allocated h a l : chain h a l → is_Some (h !! a).
Proof. destruct 1; by eexists. Qed.

Lemma chain_reaches h a l c :
  chain h a l → c ∈ a :: l →
  ∃ (nodes : list loc) nc,
    a ∈ nodes ∧ c ∈ nodes ∧
    (∀ x, x ∈ nodes → x ≠ c →
       ∃ this p, h !! x = Some this ∧ Node.parent this = Some p ∧ p ∈ nodes) ∧
    h !! c = Some nc ∧ (∀ q, Node.parent nc = Some q → is_Some (h !! q)).
Proof.
  induction 1 as [a this Ha Hp | a this p l Ha Hp Hchain IH]; intros Hc.
  - apply list_elem_of_singleton in Hc as ->.
    exists [a], this. repeat split; try apply list_elem_of_here; try done.
    + intros x ->%list_elem_of_singleton. done.
    + intros q Hq. congruence.
  - destruct (decide (c = a)) as [->|Hne].
    + exists [a], this. repeat split; try apply list_elem_of_here; try done.
      * intros x ->%list_elem_of_singleton. done.
      * intros q Hq. rewrite Hp in Hq. injection Hq as <-.
        by eapply chain_allocated.
    + apply elem_of_cons in Hc as [?|Hc]; [done|].
      destruct (IH Hc) as (nodes & nc & Hp' & Hc' & Hstep & Hnc & Hclosed).
      exists (a :: nodes), nc. repeat split; try done.
      * apply list_elem_of_here.
      * by apply list_elem_of_further.
      * intros x [->|Hx]%elem_of_cons Hxc.
        -- exists this, p. repeat split; [done|done|by apply list_elem_of_further].
        -- destruct (Hstep x Hx Hxc) as (nx & q & ? & ? & ?).
           exists nx, q. repeat split; [done|done|by apply list_elem_of_further].
Qed.

(** X3: [setParent] checks for no cycle: adding a node [c] to [P] when [c]
    is [P] itself or one of its ancestors succeeds, and afterwards
    [depth()], [ancestors()] and [root()] of [P] never return. *)
Theorem add_of_an_ancestor_makes_a_cycle h P l c :
  chain h P l → c ∈ P :: l →
  ∃ h', Node.add P c h = Ok (c, h') ∧
        ∀ fuel acc,
          Node.depth fuel h' P = Throw Exhausted ∧
          Node.ancestors fuel h' P acc = Throw Exhausted ∧
          Node.root fuel h' P = Throw Exhausted.
Proof.
  intros Hchain Hc.
  destruct (chain_reaches h P l c Hchain Hc)
    as (nodes & nc & HP & Hcn & Hstep & Hnc & Hclosed).
  destruct (setParent_changed h c nc (Some P) Hnc Hclosed) as (h' & Hrun & Hch).
  { intros q [= <-]. by eapply chain_allocated. }
  exists h'. split; [by apply add_run|].
  intros fuel acc. apply (looping_exhausts h' nodes); [|done].
  intros x Hx. destruct (decide (x = c)) as [->|Hxc].
  - exists (reparented c (Node.parent nc) (Some P) c nc), P.
    split; [by rewrite Hch, Hnc|]. split; [|done].
    rewrite reparented_parent. by rewrite decide_True.
  - destruct (Hstep x Hx Hxc) as (this & p & Hthis & Hp & Hin).
    exists (reparented c (Node.parent nc) (Some P) x this), p.
    split; [by rewrite Hch, Hthis|]. split; [|done].
    rewrite reparented_parent. by rewrite decide_False.
Qed.

Lemma add_of_an_ancestor_makes_a_cycle_witness :
  ∃ h', Node.add 4 0 Guide.store = Ok (0%nat, h') ∧
        ∀ fuel acc,
          Node.depth fuel h' 4 = Throw Exhausted ∧
          Node.ancestors fuel h' 4 acc = Throw Exhausted ∧
          Node.root fuel h' 4 = Throw Exhausted.
Proof.
  apply (add_of_an_ancestor_makes_a_cycle Guide.store 4 [2; 0]%nat 0 guide_chain_4).
  apply list_elem_of_further, list_elem_of_further, list_elem_of_here.
Defined.

(** ** Links *)

(** X4: in a store with consistent links, [setParent] to a node of the
    store, or to [null], returns, leaves the links consistent, and changes
    no id and no content. *)
Theorem setParent_keeps_the_links_consistent h a this parentNode :
  consistent h → h !! a = Some this →
  (∀ q, parentNode = Some q → is_Some (h !! q)) →
  ∃ h', Node.setParent a parentNode h = Ok (tt, h') ∧
        consistent h' ∧ length h' = length h ∧
        ∀ x n', h' !! x = Some n' →
          ∃ n, h !! x = Some n ∧ Node.id n' = Node.id n ∧
               Node.content n' = Node.content n.
Proof.
  intros Hcons Ha Hnew.
  destruct (setParent_changed h a this parentNode Ha) as (h' & Hrun & Hch);
    [|done|].
  { intros p Hp. destruct (parent_has_child h Hcons a this p Ha Hp) as (nP & ? & _).
    by eexists. }
  exists h'. split; [done|]. split; [by eapply setParent_consistent|].
  split; [by eapply changed_length|].
  intros x n' Hx. destruct (changed_lookup _ _ _ _ _ Hch Hx) as (n & Hn & ->).
  by exists n.
Qed.

Lemma setParent_keeps_the_links_consistent_witness :
  ∃ h', Node.setParent 3 (Some 1%nat) Guide.store = Ok (tt, h') ∧
        consistent h' ∧ length h' = length Guide.store ∧
        ∀ x n', h' !! x = Some n' →
          ∃ n, Guide.store !! x = Some n ∧ Node.id n' = Node.id n ∧
               Node.content n' = Node.content n.
Proof.
  apply (setParent_keeps_the_links_consistent Guide.store 3
           (Node.Properties (VNum 3) (VStr "three") (Some 2%nat) []) (Some 1%nat)).
  - exact guide_consistent.
  - reflexivity.
  - intros q Hq. injection Hq as <-. eexists. reflexivity.
Defined.

(** X5: in a store with consistent links, [setRoot()] makes the node a
    root: its parent becomes [null] and the node leaves the children of
    the parent it had; its own children stay as they are, except that a
    node that was its own parent leaves its own children; the links stay
    consistent. *)
Theorem setRoot_detaches_the_node h a this :
  consistent h → h !! a = Some this →
  ∃ h' this',
    Node.setRoot a h = Ok (tt, h') ∧
    h' !! a = Some this' ∧ Node.parent this' = None ∧
    Node.isRoot h' a = Ok true ∧
    (Node.parent this ≠ Some a → Node.children this' = Node.children this) ∧
    (Node.parent this = Some a →
       Node.children this' = filter (λ y, y ≠ a) (Node.children this)) ∧
    Node.children this'
    = (if decide (Node.parent this = Some a)
       then filter (λ y, y ≠ a) (Node.children this)
       else Node.children this) ∧
    (∀ p, Node.parent this = Some p →
       ∃ nP', h' !! p = Some nP' ∧ a ∉ Node.children nP') ∧
    consistent h'.
Proof.
  intros Hcons Ha.
  assert (∀ p, Node.parent this = Some p → is_Some (h !! p)) as Hclosed.
  { intros p Hp. destruct (parent_has_child h Hcons a this p Ha Hp) as (nP & ? & _).
    by eexists. }
  destruct (setParent_changed h a this None Ha Hclosed) as (h' & Hrun & Hch); [done|].
  assert (h' !! a = Some (reparented a (Node.parent this) None a this)) as Ha'
    by (by rewrite Hch, Ha).
  exists h', (reparented a (Node.parent this) None a this).
  split; [done|]. split; [done|].
  split; [rewrite reparented_parent; by rewrite decide_True|].
  split; [unfold Node.isRoot; get_node Ha'; by rewrite decide_True|].
  split; [|split; [|split; [|split]]].
  - intros Hself. unfold reparented; simpl. by rewrite decide_False.
  - intros Hself. unfold reparented; simpl. by rewrite decide_True.
  - unfold reparented; simpl. by destruct (decide (Node.parent this = Some a)).
  - intros p Hp. destruct (Hclosed p Hp) as [nP HnP].
    exists (reparented a (Node.parent this) None p nP).
    split; [by rewrite Hch, HnP|].
    intros [[_ Hne] | [_ ?]]%reparented_children; [by apply Hne | done].
  - by apply (setParent_consistent h h' a this None).
Qed.

Lemma setRoot_detaches_the_node_witness :
  ∃ h' this',
    Node.setRoot 2 Guide.store = Ok (tt, h') ∧
    h' !! 2%nat = Some this' ∧ Node.parent this' = None ∧
    Node.isRoot h' 2 = Ok true ∧
    (Some 0%nat ≠ Some 2%nat → Node.children this' = [3; 4]%nat) ∧
    (Some 0%nat = Some 2%nat →
       Node.children this' = filter (λ y, y ≠ 2%nat) [3; 4]%nat) ∧
    Node.children this'
    = (if decide (Some 0%nat = Some 2%nat)
       then filter (λ y, y ≠ 2%nat) [3; 4]%nat
       else [3; 4]%nat) ∧
    (∀ p, Some 0%nat = Some p →
       ∃ nP', h' !! p = Some nP' ∧ 2%nat ∉ Node.children nP') ∧
    consistent h'.
Proof.
  apply (setRoot_detaches_the_node Guide.store 2
           (Node.Properties (VNum 2) (VStr "two") (Some 0%nat) [3; 4]%nat)).
  - exact guide_consistent.
  - reflexivity.
Defined.

(** X6: [Node.remove(array, ...elements)] takes every occurrence of every
    given element out of the array and keeps the other elements in their
    order, although it splices the array while it runs over it. *)
Theorem remove_takes_out_every_occurrence array elements :
  Node.remove array elements = filter (λ x, x ∉ elements) array.
Proof.
  unfold Node.remove. rewrite remove_from_filter by done.
  rewrite firstn_all, drop_all, app_nil_r.
  apply list_filter_iff. intros x. unfold includes.
  rewrite <- not_true_iff_false, existsb_exists.
  split.
  - intros Hnot Hin. apply Hnot. exists x.
    split; [by apply list_elem_of_In | by apply Nat.eqb_eq].
  - intros Hnot (y & Hy & ->%Nat.eqb_eq). by apply Hnot, list_elem_of_In.
Qed.

(** ** Adding several nodes *)

Lemma push_cons h a c nodes h1 :
  Node.setParent c (Some a) h = Ok (tt, h1) →
  Node.push a (c :: nodes) h = Node.push a nodes h1.
Proof.
  intros H. unfold Node.push. simpl. unfold mbind, Node.M_bind.
  by rewrite (add_run _ _ _ _ H).
Qed.

Lemma filter_keeps_all (c : loc) (l : list loc) :
  c ∉ l → filter (λ y, y ≠ c) l = l.
Proof.
  induction l as [|y l IH]; [done|]. intros [Hy Hl]%not_elem_of_cons.
  rewrite filter_cons_True by congruence. by rewrite IH.
Qed.

(** X7: in a store with consistent links, [push(...nodes)] with distinct
    nodes of the store returns the node itself; the given nodes are then
    its last children, in the given order, behind the children it had
    that are not among them; each given node has the node as parent, the
    other nodes keep their parent, and the links stay consistent. *)
Theorem push_moves_the_nodes_to_the_end nodes :
  ∀ h a this,
    consistent h → h !! a = Some this →
    Forall (λ c, is_Some (h !! c)) nodes → NoDup nodes →
    ∃ h' this',
      Node.push a nodes h = Ok (a, h') ∧
      consistent h' ∧
      h' !! a = Some this' ∧
      Node.children this'
      = filter (λ y, y ∉ nodes) (Node.children this) ++ nodes ∧
      Forall (λ c, ∃ nc, h' !! c = Some nc ∧ Node.parent nc = Some a) nodes ∧
      ∀ x n, x ∉ nodes → h !! x = Some n →
        ∃ n', h' !! x = Some n' ∧ Node.parent n' = Node.parent n.
Proof.
  induction nodes as [|c nodes IH]; intros h a this Hcons Ha Hall Hnd.
  { exists h, this. split; [done|]. split; [done|]. split; [done|].
    split; [|split; [constructor|]].
    - rewrite app_nil_r. symmetry. clear.
      induction (Node.children this) as [|y l IHl]; [done|].
      rewrite filter_cons_True by apply not_elem_of_nil. by rewrite IHl.
    - intros x n _ Hx. by exists n. }
  inversion Hall as [|? ? [nc Hc] Hall']; subst.
  apply NoDup_cons in Hnd as [Hcn Hnd].
  assert (∀ q, Some a = Some q → is_Some (h !! q)) as Hnew.
  { intros q [= <-]. by eexists. }
  destruct (setParent_changed h c nc (Some a) Hc) as (h1 & Hrun & Hch); [|done|].
  { intros p Hp. destruct (parent_has_child h Hcons c nc p Hc Hp) as (nP & ? & _).
    by eexists. }
  pose proof (setParent_consistent h h1 c nc (Some a) Hcons Hc Hnew Hch) as Hcons1.
  set (this1 := reparented c (Node.parent nc) (Some a) a this).
  assert (h1 !! a = Some this1) as Ha1 by (by rewrite Hch, Ha).
  assert (Node.children this1 = filter (λ y, y ≠ c) (Node.children this) ++ [c])
    as Hcs1.
  { unfold this1, reparented; simpl. rewrite (decide_True (P := Some a = Some a)) by done.
    destruct (decide (Node.parent nc = Some a)) as [|Hold]; [done|].
    rewrite filter_keeps_all; [done|]. intros Hin.
    destruct (child_has_parent h Hcons a this c Ha Hin) as (nc' & Hnc' & Hpar).
    congruence. }
  destruct (IH h1 a this1 Hcons1 Ha1) as (h' & this' & Hpush & Hcons' & Ha' & Hcs' & Hpar & Hrest);
    [|done|].
  { eapply Forall_impl; [exact Hall'|]. intros x Hx. by eapply changed_is_Some. }
  exists h', this'. split; [by rewrite (push_cons _ _ _ _ _ Hrun)|].
  split; [done|]. split; [done|]. split; [|split].
  - rewrite Hcs', Hcs1, filter_app, list_filter_filter.
    rewrite (filter_cons_True _ c) by done. rewrite filter_nil, <- app_assoc. simpl.
    f_equal. apply list_filter_iff. intros y. rewrite not_elem_of_cons. tauto.
  - constructor; [|done].
    destruct (Hrest c (reparented c (Node.parent nc) (Some a) c nc) Hcn)
      as (nc' & Hnc' & Hpar'); [by rewrite Hch, Hc|].
    exists nc'. split; [done|]. rewrite Hpar', reparented_parent.
    by rewrite decide_True.
  - intros x n [Hxc Hx]%not_elem_of_cons Hn.
    destruct (Hrest x (reparented c (Node.parent nc) (Some a) x n) Hx)
      as (n' & Hn' & Hpar'); [by rewrite Hch, Hn|].
    exists n'. split; [done|]. rewrite Hpar', reparented_parent.
    by rewrite decide_False.
Qed.

Lemma push_moves_the_nodes_to_the_end_witness :
  ∃ h' this',
    Node.push 1 [4; 3]%nat Guide.store = Ok (1%nat, h') ∧
    consistent h' ∧
    h' !! 1%nat = Some this' ∧
    Node.children this' = filter (λ y, y ∉ [4; 3]%nat) [] ++ [4; 3]%nat ∧
    Forall (λ c, ∃ nc, h' !! c = Some nc ∧ Node.parent nc = Some 1%nat) [4; 3]%nat ∧
    ∀ x n, x ∉ [4; 3]%nat → Guide.store !! x = Some n →
      ∃ n', h' !! x = Some n' ∧ Node.parent n' = Node.parent n.
Proof.
  apply (push_moves_the_nodes_to_the_end [4; 3]%nat Guide.store 1
           (Node.Properties (VNum 1) (VStr "one") (Some 0%nat) [])).
  - exact guide_consistent.
  - reflexivity.
  - repeat constructor; eexists; reflexivity.
  - compute_done.
Defined.

(** ** Siblings and positions *)

Lemma indexOf_from_lookup (l : list loc) x :
  NoDup l → ∀ j i, l !! j = Some x → indexOf_from l x i = (i + Z.of_nat j)%Z.
Proof.
  induction 1 as [|y l Hy _ IH]; intros j i Hj; [done|].
  destruct j as [|j]; simpl in *.
  - injection Hj as ->. rewrite Nat.eqb_refl. lia.
  - destruct (y =? x)%nat eqn:E.
    + apply Nat.eqb_eq in E as ->. exfalso. apply Hy.
      by eapply list_elem_of_lookup_2.
    + rewrite (IH j) by done. lia.
Qed.

Lemma indexOf_lookup (l : list loc) x j :
  NoDup l → l !! j = Some x → indexOf l x = Z.of_nat j.
Proof. intros Hnd Hj. unfold indexOf. by rewrite (indexOf_from_lookup l x Hnd j). Qed.

Lemma length_filter_other (l : list loc) a :
  NoDup l → a ∈ l → S (length (filter (λ y, y ≠ a) l)) = length l.
Proof.
  induction 1 as [|y l Hy _ IH]; intros Ha; [by apply elem_of_nil in Ha|].
  apply elem_of_cons in Ha as [<-|Ha].
  - rewrite filter_cons_False by (intros H; by apply H).
    by rewrite filter_keeps_all.
  - rewrite filter_cons_True by (intros ->; done). simpl. by rewrite IH.
Qed.

(** X8: in a store with consistent links, [index()] of a node that has a
    parent is the position of the node among the children of the parent:
    a number from 0 up to [breadth()] (excluded), at which the children
    array holds the node. *)
Theorem index_is_the_position h a this p :
  consistent h → h !! a = Some this → Node.parent this = Some p →
  ∃ P (i : nat),
    h !! p = Some P ∧
    Node.index h a = Ok (VNum (Z.of_nat i)) ∧
    Node.children P !! i = Some a ∧
    Node.breadth h a = Ok (Z.of_nat (length (Node.children P))) ∧
    (i < length (Node.children P))%nat ∧
    Node.next h a (Some 0%Z) = Ok (VNode a).
Proof.
  intros Hcons Ha Hp.
  destruct (parent_has_child h Hcons a this p Ha Hp) as (P & HP & Hin).
  apply list_elem_of_lookup in Hin as [i Hi].
  pose proof (indexOf_lookup _ _ _ (children_once h Hcons p P HP) Hi) as Hidx.
  exists P, i. split; [done|].
  split; [unfold Node.index; get_node Ha; rewrite Hp; get_node HP; by rewrite Hidx|].
  split; [done|].
  split; [unfold Node.breadth; get_node Ha; rewrite Hp; by get_node HP|].
  split; [by eapply lookup_lt_Some|].
  rewrite (next_target h a this p P _ Ha Hp HP), Hidx. simpl.
  unfold array_get. rewrite Z.add_0_r.
  destruct (Z.of_nat i <? 0)%Z eqn:E; [lia|]. by rewrite Nat2Z.id, Hi.
Qed.

Lemma index_is_the_position_witness :
  ∃ P (i : nat),
    Guide.store !! 2%nat = Some P ∧
    Node.index Guide.store 4 = Ok (VNum (Z.of_nat i)) ∧
    Node.children P !! i = Some 4%nat ∧
    Node.breadth Guide.store 4 = Ok (Z.of_nat (length (Node.children P))) ∧
    (i < length (Node.children P))%nat ∧
    Node.next Guide.store 4 (Some 0%Z) = Ok (VNode 4).
Proof.
  apply (index_is_the_position Guide.store 4
           (Node.Properties (VNum 4) (VStr "four") (Some 2%nat) []) 2).
  - exact guide_consistent.
  - reflexivity.
  - reflexivity.
Defined.

(** X9: in a store with consistent links, [previous(count)] undoes
    [next(count)]: when [a.next(count)] is the node [b], [b] has the parent
    of [a] and [b.previous(count)] is [a]. *)
Theorem previous_undoes_next h a this p b count :
  consistent h → h !! a = Some this → Node.parent this = Some p →
  Node.next h a (Some count) = Ok (VNode b) →
  Node.previous h b (Some count) = Ok (VNode a) ∧
  ∃ nb, h !! b = Some nb ∧ Node.parent nb = Some p.
Proof.
  intros Hcons Ha Hp Hnext.
  destruct (parent_has_child h Hcons a this p Ha Hp) as (P & HP & Hin).
  pose proof (children_once h Hcons p P HP) as Hnd.
  apply list_elem_of_lookup in Hin as [i Hi].
  rewrite (next_target h a this p P _ Ha Hp HP) in Hnext.
  rewrite (indexOf_lookup _ _ _ Hnd Hi) in Hnext. simpl in Hnext.
  unfold array_get in Hnext.
  destruct (Z.of_nat i + count <? 0)%Z eqn:E; [done|]. apply Z.ltb_ge in E.
  destruct (Node.children P !! Z.to_nat (Z.of_nat i + count)) as [b'|] eqn:Hj;
    [|done].
  injection Hnext as ->.
  destruct (child_has_parent h Hcons p P b HP) as (nb & Hb & Hpb);
    [by eapply list_elem_of_lookup_2|].
  split; [|by exists nb].
  unfold Node.previous. simpl.
  rewrite (next_target h b nb p P _ Hb Hpb HP).
  rewrite (indexOf_lookup _ _ _ Hnd Hj). simpl.
  replace (Z.of_nat (Z.to_nat (Z.of_nat i + count)) + - count)%Z
    with (Z.of_nat i) by lia.
  unfold array_get. destruct (Z.of_nat i <? 0)%Z eqn:E'; [lia|].
  by rewrite Nat2Z.id, Hi.
Qed.

Lemma previous_undoes_next_witness :
  Node.previous Guide.store 2 (Some 1%Z) = Ok (VNode 1) ∧
  ∃ nb, Guide.store !! 2%nat = Some nb ∧ Node.parent nb = Some 0%nat.
Proof.
  apply (previous_undoes_next Guide.store 1
           (Node.Properties (VNum 1) (VStr "one") (Some 0%nat) []) 0 2 1%Z).
  - exact guide_consistent.
  - reflexivity.
  - reflexivity.
  - reflexivity.
Defined.

(** X10: in a store with consistent links, [siblings()] of a node does
    not hold the node, every sibling has the parent of the node, and the
    siblings are one less than [breadth()]; on a root [siblings()] is
    empty and [breadth()] is 1. *)
Theorem siblings_are_the_others h a this :
  consistent h → h !! a = Some this →
  ∃ others b,
    Node.siblings h a = Ok others ∧
    Node.breadth h a = Ok b ∧
    (a ∉ others) ∧
    (Z.of_nat (length others) + 1 = b)%Z ∧
    (∀ s, s ∈ others →
       ∃ ns, h !! s = Some ns ∧ Node.parent ns = Node.parent this) ∧
    (Node.parent this = None → others = []).
Proof.
  intros Hcons Ha. unfold Node.siblings, Node.breadth. get_node Ha.
  destruct (Node.parent this) as [p|] eqn:Hp.
  - destruct (parent_has_child h Hcons a this p Ha Hp) as (P & HP & Hin).
    get_node HP.
    exists (filter (λ node, node ≠ a) (Node.children P)),
      (Z.of_nat (length (Node.children P))).
    split; [done|]. split; [done|].
    split; [intros [Hne _]%list_elem_of_filter; by apply Hne|].
    split.
    + rewrite <- (length_filter_other _ a (children_once h Hcons p P HP) Hin). lia.
    + split; [|done]. intros s [_ Hs]%list_elem_of_filter.
      by apply (child_has_parent h Hcons p P s HP).
  - exists [], 1%Z. repeat split; try done.
    + apply not_elem_of_nil.
    + intros s Hs. by apply elem_of_nil in Hs.
Qed.

Lemma siblings_are_the_others_witness :
  ∃ others b,
    Node.siblings Guide.store 1 = Ok others ∧
    Node.breadth Guide.store 1 = Ok b ∧
    (1%nat ∉ others) ∧
    (Z.of_nat (length others) + 1 = b)%Z ∧
    (∀ s, s ∈ others →
       ∃ ns, Guide.store !! s = Some ns ∧ Node.parent ns = Some 0%nat) ∧
    (Some 0%nat = None → others = []).
Proof.
  apply (siblings_are_the_others Guide.store 1
           (Node.Properties (VNum 1) (VStr "one") (Some 0%nat) [])).
  - exact guide_consistent.
  - reflexivity.
Defined.

(** X11: on a root, [next(count)] and [previous(count)] throw a
    [TypeError] for every count, while [index()] is [null], [getParent()]
    is [null] and [root()] is the node. *)
Theorem a_root_has_no_next h a this count fuel :
  h !! a = Some this → Node.parent this = None →
  Node.next h a count = Throw TypeError ∧
  Node.previous h a count = Throw TypeError ∧
  Node.index h a = Ok VNull ∧
  Node.getParent (S fuel) h a None = Ok VNull ∧
  Node.root (S fuel) h a = Ok a.
Proof.
  intros Ha Hp.
  unfold Node.previous, Node.next, Node.index. simpl.
  get_node Ha. by rewrite Hp.
Qed.

Lemma a_root_has_no_next_witness :
  Node.next Guide.store 0 None = Throw TypeError ∧
  Node.previous Guide.store 0 None = Throw TypeError ∧
  Node.index Guide.store 0 = Ok VNull ∧
  Node.getParent 1 Guide.store 0 None = Ok VNull ∧
  Node.root 1 Guide.store 0 = Ok 0%nat.
Proof.
  apply (a_root_has_no_next Guide.store 0
           (Node.Properties (VNum 0) (VStr "zero") None [1; 2]%nat) None 0);
    reflexivity.
Defined.

(** ** Leaves and height *)

Lemma elem_of_concat {A} (x : A) (ls : list (list A)) :
  x ∈ concat ls ↔ ∃ l, l ∈ ls ∧ x ∈ l.
Proof.
  induction ls as [|l ls IH]; simpl.
  - split; [by intros ?%elem_of_nil | by intros (l & ?%elem_of_nil & _)].
  - rewrite elem_of_app, IH. split.
    + intros [Hx | (l' & Hl' & Hx)].
      * exists l. split; [apply list_elem_of_here | done].
      * exists l'. split; [by apply list_elem_of_further | done].
    + intros (l' & [->|Hl']%elem_of_cons & Hx); [by left|].
      right. by exists l'.
Qed.

Lemma isLeaf_at h x :
  is_Some (h !! x) → Node.isLeaf h x = Ok (is_leaf_at h x).
Proof.
  intros [this Hx]. unfold Node.isLeaf, Node.hasNodes, Node.hasChildren, is_leaf_at.
  get_node Hx. rewrite Hx. f_equal. by destruct (Node.children this).
Qed.

Lemma filter_result_leaves h l :
  (∀ x, x ∈ l → is_Some (h !! x)) →
  Node.filter_result (Node.isLeaf h) l
  = Ok (filter (λ x, is_leaf_at h x = true) l).
Proof.
  induction l as [|x l IH]; intros Hall; [done|].
  simpl. rewrite isLeaf_at by (apply Hall, list_elem_of_here). simpl.
  rewrite IH by (intros y Hy; by apply Hall, list_elem_of_further). simpl.
  rewrite filter_cons. by destruct (is_leaf_at h x).
Qed.

(** The nodes that the iterator yields: the node itself, nodes of the
    store only, and one without children at least. *)
Lemma iterator_nodes h t :
  ∀ a fuel, subtree h a t → (height t < fuel)%nat →
  ∃ l, Node.iterator fuel h a = Ok l ∧ head l = Some a ∧
       (∀ x, x ∈ l → is_Some (h !! x)) ∧
       (∃ x, x ∈ l ∧ is_leaf_at h x = true).
Proof.
  induction t as [i c kids IH] using tree_ind'. intros a fuel Hsub Hfuel.
  inversion Hsub as [a' this kids' Ha Hkids]; subst.
  destruct fuel as [|fuel]; [lia|].
  destruct (Forall2_kids_exists _ _
              (λ c l, Node.iterator fuel h c = Ok l ∧ head l = Some c ∧
                      (∀ x, x ∈ l → is_Some (h !! x)) ∧
                      (∃ x, x ∈ l ∧ is_leaf_at h x = true))
              kids (Node.children this) IH Hkids) as [rest Hrest].
  { intros c k Hin HP Hck. apply HP; [done|].
    pose proof (height_kid (Node.id this) (Node.content this) kids k Hin). lia. }
  exists (a :: concat rest). split; [|split; [done|split]].
  - simpl. get_node Ha.
    rewrite (map_result_Forall2 _ _ rest); [done|].
    eapply Forall2_impl; [exact Hrest|]. by intros c l [Hl _].
  - intros x [->|Hx]%elem_of_cons; [by eexists|].
    apply elem_of_concat in Hx as (l & Hl & Hx).
    apply (list_elem_of_lookup rest) in Hl as [j Hj].
    destruct (Forall2_lookup_r _ _ _ _ _ Hrest Hj) as (c & _ & _ & _ & Hall & _).
    by apply Hall.
  - destruct (Node.children this) as [|c cs] eqn:Hcs.
    + exists a. split; [apply list_elem_of_here|].
      unfold is_leaf_at. rewrite Ha. by apply bool_decide_eq_true.
    + inversion Hrest as [|? l ? rest' (_ & _ & _ & x & Hx & Hleaf) _]; subst.
      exists x. split; [|done]. apply list_elem_of_further. simpl.
      apply elem_of_app. by left.
Qed.

(** X12: on a finite tree, [leaves()] returns the yielded nodes that have
    no children, in the order in which the iterator yields them; there is
    one at least, and a node without children is its only leaf. *)
Theorem leaves_are_the_childless_nodes h a t fuel :
  subtree h a t → (height t < fuel)%nat →
  ∃ all ls,
    Node.iterator fuel h a = Ok all ∧
    Node.leaves fuel h a = Ok ls ∧
    ls ≠ [] ∧
    ls = filter (λ x, is_leaf_at h x = true) all ∧
    sublist ls all ∧
    (∀ x, x ∈ ls → Node.isLeaf h x = Ok true) ∧
    (is_leaf_at h a = true → ls = [a]).
Proof.
  intros Hsub Hfuel.
  destruct (iterator_nodes h t a fuel Hsub Hfuel)
    as (all & Hit & Hhead & Hall & x & Hx & Hleaf).
  exists all, (filter (λ x, is_leaf_at h x = true) all).
  split; [done|].
  split; [unfold Node.leaves; rewrite Hit; simpl; by apply filter_result_leaves|].
  split; [|split; [done|split; [apply sublist_filter|split]]].
  - intros Hnil. eapply (filter_nil_not_elem_of _ _ x Hnil); done.
  - intros y [Hy Hin]%list_elem_of_filter. rewrite isLeaf_at by auto. by rewrite Hy.
  - intros Ha. inversion Hsub as [a' this kids Hthis Hkids]; subst.
    unfold is_leaf_at in Ha. rewrite Hthis in Ha.
    apply bool_decide_eq_true in Ha. rewrite Ha in Hkids. inversion Hkids; subst.
    destruct fuel as [|fuel]; [lia|]. revert Hit. simpl. get_node Hthis.
    rewrite Ha. simpl. intros [= <-]. rewrite filter_cons_True; [done|].
    unfold is_leaf_at. rewrite Hthis. by apply bool_decide_eq_true.
Qed.

Lemma leaves_are_the_childless_nodes_witness :
  ∃ all ls,
    Node.iterator 4 Guide.store 0 = Ok all ∧
    Node.leaves 4 Guide.store 0 = Ok ls ∧
    ls ≠ [] ∧
    ls = filter (λ x, is_leaf_at Guide.store x = true) all ∧
    sublist ls all ∧
    (∀ x, x ∈ ls → Node.isLeaf Guide.store x = Ok true) ∧
    (is_leaf_at Guide.store 0 = true → ls = [0%nat]).
Proof.
  apply (leaves_are_the_childless_nodes Guide.store 0 _ 4 guide_subtree_0).
  simpl. lia.
Defined.

Lemma foldl_max_heights ks :
  ∀ m, (1 ≤ m)%nat →
  foldl Z.max (Z.of_nat m - 1)%Z (map (λ k, (Z.of_nat (height k) - 1)%Z) ks)
  = (Z.of_nat (Nat.max m (foldr (λ k n, Nat.max (height k) n) 0%nat ks)) - 1)%Z.
Proof.
  induction ks as [|k ks IH]; intros m Hm; simpl.
  - by rewrite Nat.max_0_r.
  - replace (Z.max (Z.of_nat m - 1) (Z.of_nat (height k) - 1))%Z
      with (Z.of_nat (Nat.max m (height k)) - 1)%Z by lia.
    rewrite IH by lia. by rewrite Nat.max_assoc.
Qed.

Lemma height_positive t : (1 ≤ height t)%nat.
Proof. destruct t. simpl. lia. Qed.

(** X13: on a finite tree, [height()] is the number of links on the
    longest way down from the node: 0 on a node without children, and one
    more than the greatest height of the children otherwise. *)
Theorem height_is_the_longest_way_down h t :
  ∀ a fuel, subtree h a t → (height t < fuel)%nat →
  Node.height fuel h a = Ok (Z.of_nat (height t) - 1)%Z.
Proof.
  induction t as [i c kids IH] using tree_ind'. intros a fuel Hsub Hfuel.
  inversion Hsub as [a' this kids' Ha Hkids]; subst.
  destruct fuel as [|fuel]; [lia|].
  simpl Node.height. get_node Ha.
  assert (Forall2 (λ c r, Node.height fuel h c = Ok r) (Node.children this)
            (map (λ k, (Z.of_nat (height k) - 1)%Z) kids)) as Hall.
  { eapply (Forall2_kids _ _ _ (λ k, (Z.of_nat (height k) - 1)%Z));
      [exact IH | exact Hkids |].
    intros c' k Hin HP Hck. apply HP; [done|].
    pose proof (height_kid (Node.id this) (Node.content this) kids k Hin). lia. }
  destruct Hkids as [|c' k cs ks Hck Hcs]; [done|].
  simpl in Hall. inversion Hall as [|? ? ? ? Hc' Hcs']; subst.
  rewrite Hc'. simpl. rewrite (map_result_Forall2 _ _ _ Hcs'). simpl.
  rewrite foldl_max_heights by apply height_positive. f_equal. lia.
Qed.

Lemma height_is_the_longest_way_down_witness :
  Node.height 4 Guide.store 0
  = Ok (Z.of_nat
          (height
             (Tree (VNum 0) (VStr "zero")
                [Tree (VNum 1) (VStr "one") [];
                 Tree (VNum 2) (VStr "two")
                   [Tree (VNum 3) (VStr "three") [];
                    Tree (VNum 4) (VStr "four") []]])) - 1)%Z.
Proof.
  apply (height_is_the_longest_way_down Guide.store _ 0 4 guide_subtree_0).
  simpl. lia.
Defined.

(** ** Building trees of new nodes *)

Lemma extends_length (h0 h : Node.heap) : extends h0 h → (length h0 ≤ length h)%nat.
Proof.
  intros Hext. destruct (decide (length h0 ≤ length h)%nat) as [|Hn]; [done|].
  destruct (lookup_lt_is_Some_2 h0 (length h)) as [n Hn0]; [lia|].
  apply Hext in Hn0. apply lookup_lt_Some in Hn0. lia.
Qed.

Lemma extends_app (h0 h : Node.heap) cells : extends h0 h → extends h0 (h ++ cells).
Proof. intros Hext x n Hx. by apply lookup_app_l_Some, Hext. Qed.

Lemma subtree_extends t :
  ∀ (h h' : Node.heap) a, subtree h a t → extends h h' → subtree h' a t.
Proof.
  induction t as [i c kids IH] using tree_ind'. intros h h' a Hsub Hext.
  inversion Hsub as [a' this kids' Ha Hkids]; subst.
  constructor; [by apply Hext|].
  eapply Forall2_kids_impl; [exact IH | exact Hkids |].
  intros c k HP Hck. by eapply HP.
Qed.

Lemma for_each_ext {A} (f g : A → Node.M unit) l :
  (∀ x h, f x h = g x h) → ∀ h, Node.for_each l f h = Node.for_each l g h.
Proof.
  intros Hfg. induction l as [|x l IH]; intros h; [done|].
  simpl. unfold mbind, Node.M_bind. rewrite Hfg.
  destruct (g x h) as [[[] h1]|]; [apply IH | done].
Qed.

(** The loop that builds the children one after the other and adds each
    to the node at [a']. *)
Lemma attach_loop {X} (h0 : Node.heap) (build : X → Node.M loc) a' xs ts :
  Forall2 (λ x t, builds h0 (build x) t) xs ts →
  (length h0 ≤ a')%nat →
  ∀ (h : Node.heap) this done,
    extends h0 h → h !! a' = Some this →
    Forall2 (tree_in h (S a') (length h) (Some a')) (Node.children this) done →
    ∃ h' cs,
      Node.for_each xs (attach build a') h = Ok (tt, h') ∧
      h' !! a' = Some (Node.with_children (Node.children this ++ cs) this) ∧
      Forall2 (tree_in h' (S a') (length h') (Some a'))
        (Node.children this ++ cs) (done ++ ts) ∧
      (length h ≤ length h')%nat ∧
      ∀ x, (x < a')%nat → h' !! x = h !! x.
Proof.
  intros Hall Hh0.
  induction Hall as [|x t xs ts Hx _ IH]; intros h this done Hext Ha Hdone.
  { exists h, []. simpl. rewrite !app_nil_r. repeat split; auto.
    rewrite Ha. by destruct this. }
  pose proof (lookup_lt_Some _ _ _ Ha) as Hlt.
  destruct (Hx h Hext) as (h1 & Hbuild & Htree & Hold).
  inversion Htree as [? ? ? ? child kids' Hrange Hc Hpar Hkids]; subst.
  assert (h1 !! a' = Some this) as Ha1 by (by rewrite Hold).
  destruct (setParent_changed h1 (length h) child (Some a') Hc)
    as (h2 & Hset & Hch).
  { intros p Hp. by rewrite Hpar in Hp. }
  { intros q [= <-]. by eexists. }
  rewrite Hpar in Hch.
  pose proof (changed_length _ _ _ Hch) as Hlen.
  assert (h2 !! a' = Some (Node.with_children (Node.children this ++ [length h]) this))
    as Ha2.
  { rewrite Hch, Ha1. simpl. f_equal. unfold reparented, Node.with_children.
    rewrite (decide_False (P := None = Some a')) by done.
    rewrite (decide_True (P := Some a' = Some a')) by done.
    rewrite decide_False by lia. done. }
  assert (∀ y, y ≠ a' → y ≠ length h → h2 !! y = h1 !! y) as Hsame.
  { intros y Hy1 Hy2. rewrite Hch. destruct (h1 !! y) as [n|]; [simpl|done].
    rewrite reparented_elsewhere; [done|done|congruence]. }
  assert (extends h0 h2) as Hext2.
  { intros y n Hy. pose proof (lookup_lt_Some _ _ _ Hy).
    pose proof (lookup_lt_Some _ _ _ (Hext y n Hy)).
    rewrite Hsame by lia. rewrite Hold by lia. by apply Hext. }
  destruct (IH h2 (Node.with_children (Node.children this ++ [length h]) this)
              (done ++ [Tree (Node.id child) (Node.content child) kids']) Hext2 Ha2)
    as (h' & cs & Hloop & Ha' & Htrees & Hle & Hold').
  { simpl. apply Forall2_app.
    - eapply Forall2_impl; [exact Hdone|]. intros c t' Hct.
      eapply tree_in_frame; [exact Hct | lia | lia |].
      intros y Hy. rewrite Hsame by lia. apply Hold. lia.
    - constructor; [|constructor].
      eapply tree_in_intro with (this := reparented (length h) None (Some a') (length h) child).
      + lia.
      + by rewrite Hch, Hc.
      + unfold reparented. simpl. by rewrite decide_True.
      + done.
      + done.
      + simpl. rewrite decide_False by (intros [= ?]; lia).
        eapply Forall2_impl; [exact Hkids|]. intros c t' Hct.
        eapply tree_in_frame; [exact Hct | lia | lia |].
        intros y Hy. apply Hsame; lia. }
  exists h', (length h :: cs). split; [|split; [|split; [|split]]].
  - simpl. unfold mbind at 1, Node.M_bind at 1.
    unfold attach at 1. unfold mbind at 1 2, Node.M_bind at 1 2.
    rewrite Hbuild. unfold Node.add. unfold mbind at 1, Node.M_bind at 1.
    rewrite Hset. exact Hloop.
  - rewrite Ha'. simpl. unfold Node.with_children. simpl.
    by rewrite <- app_assoc.
  - simpl in Htrees. rewrite <- !app_assoc in Htrees. exact Htrees.
  - lia.
  - intros y Hy. rewrite Hold' by done. rewrite Hsame by lia. apply Hold. lia.
Qed.

(** After the new node and the loop: the tree is built. *)
Lemma attach_builds {X} (h0 h : Node.heap) (build : X → Node.M loc) xs ts i c :
  Forall2 (λ x t, builds h0 (build x) t) xs ts →
  extends h0 h →
  ∃ h',
    (Node.for_each xs (attach build (length h));; mret (length h))
      (h ++ [Node.Properties i c None []]) = Ok (length h, h') ∧
    tree_in h' (length h) (length h') None (length h) (Tree i c ts) ∧
    ∀ x, (x < length h)%nat → h' !! x = h !! x.
Proof.
  intros Hall Hext.
  set (cell := Node.Properties i c None []).
  destruct (attach_loop h0 build (length h) xs ts Hall (extends_length _ _ Hext)
              (h ++ [cell]) cell [])
    as (h' & cs & Hloop & Ha' & Htrees & Hle & Hold).
  { by apply extends_app. }
  { by rewrite list_lookup_middle. }
  { constructor. }
  rewrite length_app in Hle. simpl in Hle.
  exists h'. split; [|split].
  - unfold mbind, Node.M_bind. by rewrite Hloop.
  - simpl in Htrees.
    eapply tree_in_intro; [lia | exact Ha' | done | done | done | exact Htrees].
  - intros x Hx. rewrite Hold by done. by rewrite lookup_app_l.
Qed.

(** ** Duplicating *)

Lemma clone_object_plain o v : plain v = true → Node.clone_object o v = Ok v.
Proof.
  unfold Node.clone_object, Node.typeOf.
  destruct v as [| |b|z| |s|l|a|xs|fields]; simpl; try done.
  - by destruct b.
  - by destruct (z =? 0)%Z.
  - by destruct (String.eqb s "").
  - intros [Hc%negb_true_iff Hp%negb_true_iff]%andb_prop. by rewrite Hp, Hc.
Qed.

(** X14: [Node.clone(object)] returns a number, string, boolean, [null],
    [undefined] or node as it is, and for an array literal, or an object
    literal with no key [constructor] or [__proto__], a copy that holds
    the same elements or properties; on an object literal (without a key
    [__proto__]) whose own property constructor is [null] or [undefined]
    it throws a [TypeError], and so does [detach()] on a node with such a
    content. *)
Theorem clone_object_returns_or_throws o :
  (∀ v, plain v = true → Node.clone_object o v = Ok v) ∧
  (∀ fields,
     Node.has_field fields "__proto__" = false →
     Node.has_field fields "constructor" = true →
     field fields "constructor" = VNull ∨ field fields "constructor" = VUndefined →
     Node.clone_object o (VObj fields) = Throw TypeError ∧
     ∀ (h : Node.heap) a this,
       h !! a = Some this → Node.content this = VObj fields →
       Node.detach o a h = Throw TypeError).
Proof.
  split; [apply clone_object_plain|].
  intros fields Hproto Hhas Hnull.
  assert (Node.clone_object o (VObj fields) = Throw TypeError) as Hthrow.
  { unfold Node.clone_object, Node.typeOf. simpl. rewrite Hproto, Hhas.
    by destruct Hnull as [-> | ->]. }
  split; [done|]. intros h a this Ha Hcontent.
  unfold Node.detach, mbind, Node.M_bind. rewrite (read_run h a this Ha).
  unfold Node.lift. by rewrite Hcontent, Hthrow.
Qed.

Lemma clone_object_returns_or_throws_witness :
  Node.clone_object quiet (VObj [("constructor", VNull)]) = Throw TypeError ∧
  ∀ (h : Node.heap) a this,
    h !! a = Some this → Node.content this = VObj [("constructor", VNull)] →
    Node.detach quiet a h = Throw TypeError.
Proof.
  apply (clone_object_returns_or_throws quiet).
  - reflexivity.
  - reflexivity.
  - left. reflexivity.
Defined.

Lemma detach_run o (h : Node.heap) a this :
  h !! a = Some this → plain (Node.content this) = true →
  Node.detach o a h
  = Ok (length h,
        h ++ [Node.Properties (Node.id this)
                (or_default VNull (Node.content this)) None []]).
Proof.
  intros Ha Hplain. unfold Node.detach, mbind, Node.M_bind.
  rewrite (read_run h a this Ha). unfold Node.lift.
  by rewrite (clone_object_plain o _ Hplain).
Qed.

(** X15: [detach()] of a node whose content is a primitive, a node, an
    array literal or an object literal with no key [constructor] or
    [__proto__] adds one new node to the store and changes nothing else:
    the new node has the id of the node, a content equal to its content
    ([null] when that is [undefined]), no parent and no children, and
    detaching again gives a second such node. *)
Theorem detach_gives_a_node_without_links o h a this :
  h !! a = Some this → plain (Node.content this) = true →
  ∃ h' copy,
    Node.detach o a h = Ok (length h, h') ∧
    h' !! length h = Some copy ∧
    Node.id copy = Node.id this ∧
    Node.content copy = or_default VNull (Node.content this) ∧
    Node.parent copy = None ∧ Node.children copy = [] ∧
    (∀ x, (x < length h)%nat → h' !! x = h !! x) ∧
    ∃ h'', Node.detach o a h' = Ok (S (length h), h'') ∧
           h'' !! S (length h) = Some copy ∧ h'' !! length h = Some copy.
Proof.
  intros Ha Hplain.
  set (copy := Node.Properties (Node.id this)
                 (or_default VNull (Node.content this)) None []).
  exists (h ++ [copy]), copy.
  split; [by apply detach_run|]. split; [by rewrite list_lookup_middle|].
  repeat (split; [done|]).
  split; [intros x Hx; by rewrite lookup_app_l|].
  exists ((h ++ [copy]) ++ [copy]). split; [|split].
  - rewrite (detach_run o (h ++ [copy]) a this); [|by apply lookup_app_l_Some|done].
    rewrite length_app. simpl. by rewrite Nat.add_1_r.
  - rewrite list_lookup_middle; [done|]. rewrite length_app. simpl. lia.
  - apply lookup_app_l_Some. by rewrite list_lookup_middle.
Qed.

Lemma detach_gives_a_node_without_links_witness :
  ∃ h' copy,
    Node.detach quiet 2 Guide.store = Ok (length Guide.store, h') ∧
    h' !! length Guide.store = Some copy ∧
    Node.id copy = VNum 2 ∧
    Node.content copy = or_default VNull (VStr "two") ∧
    Node.parent copy = None ∧ Node.children copy = [] ∧
    (∀ x, (x < length Guide.store)%nat → h' !! x = Guide.store !! x) ∧
    ∃ h'', Node.detach quiet 2 h' = Ok (S (length Guide.store), h'') ∧
           h'' !! S (length Guide.store) = Some copy ∧
           h'' !! length Guide.store = Some copy.
Proof.
  apply (detach_gives_a_node_without_links quiet Guide.store 2
           (Node.Properties (VNum 2) (VStr "two") (Some 0%nat) [3; 4]%nat));
    reflexivity.
Defined.

Lemma clone_body o fuel a' node (h : Node.heap) :
  (copy ← Node.clone o fuel node; Node.push a' [copy];; mret tt) h
  = attach (Node.clone o fuel) a' node h.
Proof.
  unfold attach, mbind, Node.M_bind.
  destruct (Node.clone o fuel node h) as [[copy h1]|]; [|done].
  unfold Node.push, Node.add. simpl. unfold mbind, Node.M_bind.
  by destruct (Node.setParent copy (Some a') h1) as [[[] h2]|].
Qed.

Lemma clone_builds o t :
  ∀ a fuel (h0 : Node.heap),
    subtree h0 a t → plain_tree t = true → (height t < fuel)%nat →
    builds h0 (Node.clone o fuel a) (parsed t).
Proof.
  induction t as [i c kids IH] using tree_ind'.
  intros a fuel h0 Hsub Hplain Hfuel h Hext.
  inversion Hsub as [a' this kids' Ha Hkids]; subst.
  destruct fuel as [|fuel]; [lia|].
  simpl in Hplain. apply andb_prop in Hplain as [Hc Hks].
  assert (Forall2 (λ x t, builds h0 (Node.clone o fuel x) t)
            (Node.children this) (map parsed kids)) as Hall.
  { eapply (Forall2_kids _ _ _ parsed); [exact IH | exact Hkids |].
    intros c k Hin HP Hck. apply HP; [done| |].
    - apply (proj1 (forallb_forall _ _) Hks). by apply list_elem_of_In.
    - pose proof (height_kid (Node.id this) (Node.content this) kids k Hin). lia. }
  destruct (attach_builds h0 h (Node.clone o fuel) _ _ (Node.id this)
              (or_default VNull (Node.content this)) Hall Hext)
    as (h' & Hrun & Htree & Hold).
  exists h'. split; [|split; [exact Htree | exact Hold]].
  rewrite <- Hrun. simpl Node.clone. unfold mbind at 1, Node.M_bind at 1.
  rewrite (detach_run o h a this (Hext _ _ Ha) Hc).
  unfold mbind at 1, Node.M_bind at 1.
  rewrite (read_run _ a this) by (by apply lookup_app_l_Some, Hext).
  unfold mbind, Node.M_bind.
  rewrite (for_each_ext _ (attach (Node.clone o fuel) (length h)));
    [done|]. intros x hx. apply clone_body.
Qed.

(** X16: on a finite tree whose contents are primitives, nodes, array
    literals or object literals with no key [constructor] or [__proto__],
    [clone()] builds, out of new nodes only, a tree with the same ids, the
    same shape and order and equal contents ([null] for [undefined]); its
    root has no parent, and the tree that was cloned is left as it
    was. *)
Theorem clone_copies_the_tree o h a t fuel :
  subtree h a t → plain_tree t = true → (height t < fuel)%nat →
  ∃ h',
    Node.clone o fuel a h = Ok (length h, h') ∧
    tree_in h' (length h) (length h') None (length h) (parsed t) ∧
    subtree h' (length h) (parsed t) ∧
    (∀ x, (x < length h)%nat → h' !! x = h !! x) ∧
    subtree h' a t ∧
    (no_undefined t = true → parsed t = t).
Proof.
  intros Hsub Hplain Hfuel.
  destruct (clone_builds o t a fuel h Hsub Hplain Hfuel h) as (h' & Hrun & Htree & Hold);
    [by intros x n|].
  exists h'. split; [done|]. split; [done|].
  split; [by eapply tree_in_subtree|]. split; [done|].
  split; [|apply parsed_no_undefined].
  eapply subtree_extends; [exact Hsub|].
  intros x n Hx. rewrite Hold; [done|]. by eapply lookup_lt_Some.
Qed.

Lemma clone_copies_the_tree_witness :
  ∃ h',
    Node.clone quiet 3 2 Guide.store = Ok (length Guide.store, h') ∧
    tree_in h' (length Guide.store) (length h') None (length Guide.store)
      (parsed (Tree (VNum 2) (VStr "two")
                 [Tree (VNum 3) (VStr "three") []; Tree (VNum 4) (VStr "four") []])) ∧
    subtree h' (length Guide.store)
      (parsed (Tree (VNum 2) (VStr "two")
                 [Tree (VNum 3) (VStr "three") []; Tree (VNum 4) (VStr "four") []])) ∧
    (∀ x, (x < length Guide.store)%nat → h' !! x = Guide.store !! x) ∧
    subtree h' 2
      (Tree (VNum 2) (VStr "two")
         [Tree (VNum 3) (VStr "three") []; Tree (VNum 4) (VStr "four") []]) ∧
    (no_undefined
       (Tree (VNum 2) (VStr "two")
          [Tree (VNum 3) (VStr "three") []; Tree (VNum 4) (VStr "four") []]) = true →
     parsed (Tree (VNum 2) (VStr "two")
               [Tree (VNum 3) (VStr "three") []; Tree (VNum 4) (VStr "four") []])
     = Tree (VNum 2) (VStr "two")
         [Tree (VNum 3) (VStr "three") []; Tree (VNum 4) (VStr "four") []]).
Proof.
  apply (clone_copies_the_tree quiet Guide.store 2 _ 3).
  - apply (subtree_node Guide.store 2
             (Node.Properties (VNum 2) (VStr "two") (Some 0%nat) [3; 4]%nat));
      [reflexivity | exact guide_subtree_2].
  - reflexivity.
  - simpl. lia.
Defined.

(** ** Custom constructors *)

Lemma parse_step fuel object ctor (h : Node.heap) r i c rs :
  default Node.default_destructure ctor h object = Ok r →
  Node.get_prop h r Node.Pid = Ok i →
  Node.get_prop h r Node.Pcontent = Ok c →
  Node.get_prop h r Node.Pnodes = Ok (VArr rs) →
  Node.parse (S fuel) object ctor h
  = (Node.for_each rs (attach (λ x, Node.parse fuel x ctor) (length h));;
     mret (length h))
      (h ++ [Node.Properties i (or_default VNull c) None []]).
Proof.
  intros Hr Hi Hc Hn. simpl. unfold mbind, Node.M_bind, Node.lift.
  rewrite Hr. simpl. rewrite Hi. simpl. rewrite Hc. simpl. by rewrite Hn.
Qed.

Lemma encode_record_with s b d h t :
  inverse_pair s b d →
  ∀ a fuel, subtree h a t → (height t < fuel)%nat →
  Node.encode fuel h a (Some b) = Ok (record_with s t).
Proof.
  intros Hpair. induction t as [i c kids IH] using tree_ind'.
  intros a fuel Hsub Hfuel.
  inversion Hsub as [a' this kids' Ha Hkids]; subst.
  destruct fuel as [|fuel]; [lia|].
  simpl. apply (builds_shape s b d Hpair h a this); [done|].
  get_node Ha. apply map_result_Forall2.
  eapply (Forall2_kids _ _ _ (record_with s)); [exact IH | exact Hkids |].
  intros c k Hin HP Hck. apply HP; [done|].
  pose proof (height_kid (Node.id this) (Node.content this) kids k Hin). lia.
Qed.

Lemma parse_record_with s b d t :
  inverse_pair s b d →
  ∀ fuel, (height t < fuel)%nat →
  builds [] (Node.parse fuel (record_with s t) (Some d)) (parsed t).
Proof.
  intros Hpair. induction t as [i c kids IH] using tree_ind'.
  intros [|fuel] Hfuel h Hext; [lia|].
  destruct (reads_shape s b d Hpair h i c (map (record_with s) kids))
    as (r & Hr & Hi & Hc & Hn).
  simpl record_with. rewrite (parse_step fuel _ (Some d) h r i c _ Hr Hi Hc Hn).
  apply (attach_builds [] h (λ x, Node.parse fuel x (Some d))
           (map (record_with s) kids) (map parsed kids)); [|done].
  clear -IH Hfuel. induction IH as [|k kids Hk _ IHkids]; [constructor|].
  simpl. constructor.
  - apply Hk. simpl in Hfuel. lia.
  - apply IHkids. simpl in *. lia.
Qed.

(** X17: with a constructor for [encode] and one for [parse] that undo
    each other on the records of some shape, [encode] gives the record of
    that shape for a finite tree, and [parse] builds from it, out of new
    nodes only, a tree with the same ids, shape, order and contents
    ([null] for [undefined]); the constructors of the guide are such a
    pair. *)
Theorem custom_round_trip s b d h a t fuel :
  inverse_pair s b d → subtree h a t → (height t < fuel)%nat →
  ∃ h',
    Node.encode fuel h a (Some b) = Ok (record_with s t) ∧
    Node.parse fuel (record_with s t) (Some d) h = Ok (length h, h') ∧
    tree_in h' (length h) (length h') None (length h) (parsed t) ∧
    subtree h' (length h) (parsed t) ∧
    (∀ x, (x < length h)%nat → h' !! x = h !! x) ∧
    inverse_pair Custom.record_shape Custom.builder Custom.destructure.
Proof.
  intros Hpair Hsub Hfuel.
  destruct (parse_record_with s b d t Hpair fuel Hfuel h)
    as (h' & Hrun & Htree & Hold); [by intros x n|].
  exists h'. split; [by eapply encode_record_with|]. split; [done|].
  split; [done|]. split; [by eapply tree_in_subtree|]. split; [done|].
  split.
  - intros h1 a1 this encode rs Ha1 He. unfold Custom.builder.
    get_node Ha1. by rewrite He.
  - intros h1 i c rs. eexists. split; [reflexivity|]. by repeat split.
Qed.

Lemma guide_inverse_pair :
  inverse_pair Custom.record_shape Custom.builder Custom.destructure.
Proof.
  split.
  - intros h1 a1 this encode rs Ha1 He. unfold Custom.builder.
    get_node Ha1. by rewrite He.
  - intros h1 i c rs. eexists. split; [reflexivity|]. by repeat split.
Qed.

Lemma custom_round_trip_witness :
  ∃ h',
    Node.encode 4 Guide.store 0 (Some Custom.builder)
    = Ok (record_with Custom.record_shape
            (Tree (VNum 0) (VStr "zero")
               [Tree (VNum 1) (VStr "one") [];
                Tree (VNum 2) (VStr "two")
                  [Tree (VNum 3) (VStr "three") [];
                   Tree (VNum 4) (VStr "four") []]])) ∧
    Node.parse 4
      (record_with Custom.record_shape
         (Tree (VNum 0) (VStr "zero")
            [Tree (VNum 1) (VStr "one") [];
             Tree (VNum 2) (VStr "two")
               [Tree (VNum 3) (VStr "three") [];
                Tree (VNum 4) (VStr "four") []]]))
      (Some Custom.destructure) Guide.store = Ok (length Guide.store, h') ∧
    tree_in h' (length Guide.store) (length h') None (length Guide.store)
      (parsed (Tree (VNum 0) (VStr "zero")
                 [Tree (VNum 1) (VStr "one") [];
                  Tree (VNum 2) (VStr "two")
                    [Tree (VNum 3) (VStr "three") [];
                     Tree (VNum 4) (VStr "four") []]])) ∧
    subtree h' (length Guide.store)
      (parsed (Tree (VNum 0) (VStr "zero")
                 [Tree (VNum 1) (VStr "one") [];
                  Tree (VNum 2) (VStr "two")
                    [Tree (VNum 3) (VStr "three") [];
                     Tree (VNum 4) (VStr "four") []]])) ∧
    (∀ x, (x < length Guide.store)%nat → h' !! x = Guide.store !! x) ∧
    inverse_pair Custom.record_shape Custom.builder Custom.destructure.
Proof.
  apply (custom_round_trip Custom.record_shape Custom.builder Custom.destructure
           Guide.store 0 _ 4 guide_inverse_pair guide_subtree_0).
  simpl. lia.
Defined.

(** ** Records that cannot be parsed *)



(** ** Walking up a cycle *)

(** X19: [getParent(count)] makes at most [count] steps, so it returns
    even where the parent links form a cycle, on which [depth()] and
    [root()] never do. *)
Theorem getParent_returns_on_a_cycle h nodes a count fuel :
  looping h nodes → a ∈ nodes → (Z.to_nat count < fuel)%nat →
  ∃ b, Node.getParent fuel h a (Some count) = Ok (VNode b) ∧ b ∈ nodes ∧
       Node.depth fuel h a = Throw Exhausted ∧
       Node.root fuel h a = Throw Exhausted.
Proof.
  intros Hloop Ha Hfuel.
  destruct (looping_exhausts h nodes Hloop fuel a None Ha) as (Hd & _ & Hr).
  assert (∃ b, Node.getParent fuel h a (Some count) = Ok (VNode b) ∧ b ∈ nodes)
    as (b & Hb & Hin); [|by exists b].
  clear Hd Hr. revert a count Ha Hfuel.
  induction fuel as [|fuel IH]; intros a count Ha Hfuel; [lia|].
  simpl. destruct (count <? 1)%Z eqn:E; [by exists a|].
  apply Z.ltb_ge in E.
  destruct (Hloop a Ha) as (this & p & Hthis & Hp & Hin).
  get_node Hthis. rewrite Hp. apply IH; [done|lia].
Qed.

Lemma getParent_returns_on_a_cycle_witness :
  ∃ b, Node.getParent 8 [Node.Properties (VNum 0) VNull (Some 0%nat) [0%nat]] 0
         (Some 7%Z) = Ok (VNode b) ∧ b ∈ [0%nat] ∧
       Node.depth 8 [Node.Properties (VNum 0) VNull (Some 0%nat) [0%nat]] 0
       = Throw Exhausted ∧
       Node.root 8 [Node.Properties (VNum 0) VNull (Some 0%nat) [0%nat]] 0
       = Throw Exhausted.
Proof.
  apply (getParent_returns_on_a_cycle
           [Node.Properties (VNum 0) VNull (Some 0%nat) [0%nat]] [0%nat] 0 7%Z 8).
  - intros x ->%list_elem_of_singleton. eexists _, 0%nat.
    split; [reflexivity|]. split; [reflexivity | apply list_elem_of_here].
  - apply list_elem_of_here.
  - simpl. lia.
Defined.
